(** * Causal-ordering core of the decentralised chat (causal.py, controller.py)

    A shallow embedding of [CausalMessageEntry] and [CausalOrderManager]
    (the Kshemkalyani-Singhal manager of causal.py) and of the guard of
    [Controller.handleOutgoingMessage] (controller.py).

    Conventions of the embedding.
    - Python [str] is [string], Python [int] is [Z], a set of peer ids is a
      [gset string], the dict [SR_j] is a [gmap string Z].
    - A Python set of [CausalMessageEntry] objects is a [list] of entries: the
      list order stands for the (unspecified) iteration order, and the set
      operations below look elements up with the entries' [__eq__], as the
      hash table does once the hashes agree.  Entries are mutated while they
      sit in a set, so a set may come to hold two entries that compare equal;
      the list keeps both, as the hash table does.
    - The record field is [Dests]; the destination set of the message being
      sent or received, also called [Dests] in the source, is [DestsM]. *)

From stdpp Require Import gmap strings list fin_maps.
From Stdlib Require Import ZArith String Ascii.

Open Scope string_scope.
Open Scope Z_scope.

(** ** CausalMessageEntry (causal.py, lines 32-56) *)

Record CausalMessageEntry := CME {
  i : string;
  clock_i : Z;
  Dests : gset string
}.

Global Instance CausalMessageEntry_eq_dec : EqDecision CausalMessageEntry.
Proof. solve_decision. Defined.

(** [__hash__] returns [hash((self.i, self.clock_i))]: the value hashed is the
    pair below. *)
Definition CME_hash (e : CausalMessageEntry) : string * Z := (i e, clock_i e).

(** [__eq__] is the one [@dataclass(eq=True)] generates: it compares the
    tuples of all fields, [(i, clock_i, Dests)]. *)
Definition CME_eq (a b : CausalMessageEntry) : bool :=
  bool_decide ((i a, clock_i a, Dests a) = (i b, clock_i b, Dests b)).

Definition with_Dests (D : gset string) (e : CausalMessageEntry) : CausalMessageEntry :=
  CME (i e) (clock_i e) D.

(** ** Python sets of entries *)

Module PySet.

(** [x in s]: an element with the same hash that is [x] or compares equal. *)
Definition contains (x : CausalMessageEntry) (s : list CausalMessageEntry) : bool :=
  existsb (CME_eq x) s.

(** [s.add(x)] *)
Definition add (x : CausalMessageEntry) (s : list CausalMessageEntry)
  : list CausalMessageEntry :=
  if contains x s then s else s ++ [x].

(** [s.discard(x)]: removes the one element found, if any. *)
Fixpoint discard (x : CausalMessageEntry) (s : list CausalMessageEntry)
  : list CausalMessageEntry :=
  match s with
  | [] => []
  | y :: s' => if CME_eq x y then s' else y :: discard x s'
  end.

(** [set(iterable)] *)
Definition from_list (l : list CausalMessageEntry) : list CausalMessageEntry :=
  foldl (fun acc x => add x acc) [] l.

(** [s.union(t)]: a copy of [s] into which the elements of [t] are
    inserted; into an empty table CPython copies [t] without comparing. *)
Definition union (s t : list CausalMessageEntry) : list CausalMessageEntry :=
  match s with
  | [] => t
  | _ => foldl (fun acc x => add x acc) s t
  end.

(** [s.difference(iterable)]: a copy of [s] from which each element of
    the iterable is discarded. *)
Definition difference (s l : list CausalMessageEntry) : list CausalMessageEntry :=
  foldl (fun acc x => discard x acc) s l.

(** [copy.deepcopy(s)]: the elements are copied and a new set is built
    from the copies. *)
Definition deepcopy (s : list CausalMessageEntry) : list CausalMessageEntry :=
  from_list s.

End PySet.

(** Iterating a [str] yields its characters as one-character strings; this
    is what [set.difference(self.j)] iterates. *)
Definition chars (s : string) : list string :=
  (fun c => String c EmptyString) <$> list_ascii_of_string s.

(** ** The manager's state (causal.py, lines 67-77) *)

Record CausalOrderManager := COM {
  j : string;
  clock_j : Z;
  SR_j : gmap string Z;
  LOG_j : list CausalMessageEntry
}.

(** [__init__(own_id, controller)] *)
Definition init (own_id : string) : CausalOrderManager :=
  COM own_id 0 {[ own_id := 0 ]} [CME own_id 0 ∅].

Definition with_LOG (L : list CausalMessageEntry) (st : CausalOrderManager)
  : CausalOrderManager :=
  COM (j st) (clock_j st) (SR_j st) L.

Inductive exn := KeyError (key : string).

Global Instance exn_eq_dec : EqDecision exn.
Proof. solve_decision. Defined.

(** [newerEntryExists(s, t, X)] (lines 220-231) *)
Definition newerEntryExists (s : string) (t : Z) (X : list CausalMessageEntry) : bool :=
  existsb (fun x => bool_decide (s = i x) && bool_decide (t < clock_i x)) X.

(** The test [len(l.Dests) == 0 and self.newerEntryExists(s, t, X)]. *)
Definition stale_in (X : list CausalMessageEntry) (l : CausalMessageEntry) : bool :=
  bool_decide (size (Dests l) = 0%nat) && newerEntryExists (i l) (clock_i l) X.

(** [purgeNullEntries()] on the log (lines 233-245): mark, then discard. *)
Definition purgeNullEntries (LOG : list CausalMessageEntry) : list CausalMessageEntry :=
  let marked_l_sts := List.filter (stale_in LOG) LOG in
  foldl (fun acc marked => PySet.discard marked acc) LOG marked_l_sts.

(** ** send, step (1b): the piggy-back set for one destination (lines 87-102) *)

(** The two [if]s of lines 92-95, in sequence. *)
Definition prune_d (d : string) (DestsM : gset string) (o : CausalMessageEntry)
  : CausalMessageEntry :=
  let o1 := if bool_decide (d ∉ Dests o)
            then with_Dests (Dests o ∖ DestsM) o else o in
  if bool_decide (d ∈ Dests o1)
  then with_Dests ((Dests o1 ∖ DestsM) ∪ {[ d ]}) o1 else o1.

(** Lines 87-95: deep copy of the log, every copy rewritten in place. *)
Definition pruned_copy (LOG : list CausalMessageEntry) (d : string) (DestsM : gset string)
  : list CausalMessageEntry :=
  prune_d d DestsM <$> PySet.deepcopy LOG.

(** Lines 97-102: the loop runs over the set [O_M] named at its start, while
    the test and the removal use the set [O_M] currently names. *)
Definition drop_stale (O_M : list CausalMessageEntry) : list CausalMessageEntry :=
  foldl (fun cur o_st =>
           if stale_in cur o_st then PySet.difference cur [o_st] else cur)
        O_M O_M.

Definition build_O_M (LOG : list CausalMessageEntry) (d : string) (DestsM : gset string)
  : list CausalMessageEntry :=
  drop_stale (pruned_copy LOG d DestsM).

(** ** The envelope codec (lines 247-261)

    [json.dumps] and [json.loads] belong to Python's library.  They enter as
    an interface: a text type with a printer and a parser of the JSON values
    the manager writes. *)

Inductive json :=
| JStr (s : string)
| JInt (n : Z)
| JList (l : list json).

Class JsonText := {
  wire : Type;
  json_dumps : json -> wire;
  json_loads : wire -> option json
}.

Class JsonTextLaws (T : JsonText) : Prop := {
  loads_dumps : forall v : json, json_loads (json_dumps v) = Some v
}.

Record Envelope := Env {
  env_k : string;
  env_t_k : Z;
  env_M : string;
  env_Dests : gset string;
  env_O_M : list CausalMessageEntry
}.

Definition json_of_set (D : gset string) : json := JList (JStr <$> elements D).

Definition json_of_entry (cme : CausalMessageEntry) : json :=
  JList [JStr (i cme); JInt (clock_i cme); json_of_set (Dests cme)].

Definition as_str (v : json) : option string :=
  match v with JStr s => Some s | _ => None end.

Definition as_int (v : json) : option Z :=
  match v with JInt n => Some n | _ => None end.

Definition as_set (v : json) : option (gset string) :=
  match v with
  | JList l => list_to_set <$> mapM as_str l
  | _ => None
  end.

Definition as_entry (v : json) : option CausalMessageEntry :=
  match v with
  | JList (e0 :: e1 :: e2 :: _) =>
      s ← as_str e0; t ← as_int e1; D ← as_set e2; Some (CME s t D)
  | _ => None
  end.

Section Codec.
Context {T : JsonText}.

(** [packMessage(m, clock_m, M, Dests, O_M)] *)
Definition packMessage (m : string) (clock_m : Z) (M : string)
    (DestsM : gset string) (O_M : list CausalMessageEntry) : wire :=
  json_dumps (JList [JStr m; JInt clock_m; JStr M; json_of_set DestsM;
                     JList (json_of_entry <$> O_M)]).

(** [unpackMessage(message)].  [None] stands for every text that is not a
    list of the five fields in the shapes [packMessage] writes; what Python
    does with those is not modelled. *)
Definition unpackMessage (message : wire) : option Envelope :=
  match json_loads message with
  | Some (JList (u0 :: u1 :: u2 :: u3 :: JList u4 :: _)) =>
      k ← as_str u0; t_k ← as_int u1; M ← as_str u2; D ← as_set u3;
      es ← mapM as_entry u4;
      Some (Env k t_k M D (PySet.from_list es))
  | _ => None
  end.

(** ** send (lines 79-126) *)

(** [reactor.callLater(delay, self.controller.peers[d].sendMessage, packed)] *)
Record NetCall := Call {
  call_delay : Z;
  call_peer : string;
  call_message : wire
}.

(** The loop (1b) over the destinations; [peers] are the keys of
    [self.controller.peers], whose lookup raises on an unknown [d]. *)
Fixpoint send_loop (st : CausalOrderManager) (peers : gset string) (M : string)
    (DestsM : gset string) (delay : Z) (ds : list string)
  : list NetCall * option exn :=
  match ds with
  | [] => ([], None)
  | d :: ds' =>
      let O_M := build_O_M (LOG_j st) d DestsM in
      let packed_message := packMessage (j st) (clock_j st) M DestsM O_M in
      if bool_decide (d ∈ peers) then
        let '(calls, e) := send_loop st peers M DestsM delay ds' in
        (Call delay d packed_message :: calls, e)
      else ([], Some (KeyError d))
  end.

(** Steps (1c) and (1d) on the log. *)
Definition send_log (LOG : list CausalMessageEntry) (own : string) (clock : Z)
    (DestsM : gset string) : list CausalMessageEntry :=
  let shrunk := (fun l => with_Dests (Dests l ∖ DestsM) l) <$> LOG in
  PySet.union (purgeNullEntries shrunk) [CME own clock DestsM].

Definition send (st : CausalOrderManager) (peers : gset string) (M : string)
    (DestsM : gset string) (delay : Z)
  : CausalOrderManager * list NetCall * option exn :=
  let st1 := COM (j st) (clock_j st + 1) (SR_j st) (LOG_j st) in
  match send_loop st1 peers M DestsM delay (elements DestsM) with
  | (calls, Some e) => (st1, calls, Some e)
  | (calls, None) =>
      (with_LOG (send_log (LOG_j st1) (j st1) (clock_j st1) DestsM) st1, calls, None)
  end.

End Codec.

(** ** recv (lines 142-218) *)

(** (2a) The delivery condition, scanning the entries still to be checked.
    [DcWait] is the point where the worker thread waits on the condition; it
    resumes with the same entry and the entries after it. *)
Inductive dc_result :=
| DcReady
| DcWait (m : string) (t_m : Z) (todo : list CausalMessageEntry)
| DcKeyError (m : string).

Fixpoint delivery_condition (own : string) (SR : gmap string Z)
    (todo : list CausalMessageEntry) : dc_result :=
  match todo with
  | [] => DcReady
  | o_mt_m :: rest =>
      let m := i o_mt_m in
      let t_m := clock_i o_mt_m in
      if bool_decide (own ∈ Dests o_mt_m) then
        match SR !! m with
        | None => DcKeyError m
        | Some sr => if bool_decide (t_m <= sr)
                     then delivery_condition own SR rest
                     else DcWait m t_m (o_mt_m :: rest)
        end
      else delivery_condition own SR rest
  end.

(** (2c) [O_M.add(...)], then [o.Dests = o.Dests.difference(self.j)] for
    every entry: [difference] iterates its argument, the string [self.j]. *)
Definition strip_own (own : string) (o : CausalMessageEntry) : CausalMessageEntry :=
  with_Dests (Dests o ∖ list_to_set (chars own)) o.

Definition incorporate (own k : string) (t_k : Z) (DestsM : gset string)
    (O_M : list CausalMessageEntry) : list CausalMessageEntry :=
  strip_own own <$> PySet.add (CME k t_k DestsM) O_M.

(** (2d), first pair of loops: the two marker lists. *)
Definition marks_o (O_M LOG : list CausalMessageEntry) : list CausalMessageEntry :=
  let LOG_j_as_list := CME_hash <$> LOG in
  o_mt ← O_M;
  l_stprime ← LOG;
  if bool_decide (i l_stprime = i o_mt)
     && bool_decide (clock_i o_mt < clock_i l_stprime)
     && negb (bool_decide ((i l_stprime, clock_i o_mt) ∈ LOG_j_as_list))
  then [o_mt] else [].

Definition marks_l (O_M LOG : list CausalMessageEntry) : list CausalMessageEntry :=
  let O_M_as_list := CME_hash <$> O_M in
  o_mt ← O_M;
  l_stprime ← LOG;
  if bool_decide (i l_stprime = i o_mt)
     && bool_decide (clock_i l_stprime < clock_i o_mt)
     && negb (bool_decide ((i o_mt, clock_i l_stprime) ∈ O_M_as_list))
  then [l_stprime] else [].

Definition same_key (a b : CausalMessageEntry) : bool :=
  bool_decide (i a = i b) && bool_decide (clock_i a = clock_i b).

(** (2d), second pair of loops: each log entry is intersected, in place,
    with every entry of [O_M] that has its key; those entries are marked. *)
Definition shrink_entry (O_M : list CausalMessageEntry) (l_stprime : CausalMessageEntry)
  : CausalMessageEntry :=
  foldl (fun l o_mt =>
           if same_key l o_mt then with_Dests (Dests l ∩ Dests o_mt) l else l)
        l_stprime O_M.

Definition marks_absorbed (O_M LOG : list CausalMessageEntry) : list CausalMessageEntry :=
  l_stprime ← LOG;
  o_mt ← O_M;
  if same_key l_stprime o_mt then [o_mt] else [].

(** (2c)-(2e) on the log. *)
Definition recv_log (own : string) (LOG : list CausalMessageEntry) (k : string)
    (t_k : Z) (DestsM : gset string) (O_M : list CausalMessageEntry)
  : list CausalMessageEntry :=
  let O1 := incorporate own k t_k DestsM O_M in
  let O2 := PySet.difference O1 (marks_o O1 LOG) in
  let L1 := PySet.difference LOG (marks_l O1 LOG) in
  let L2 := shrink_entry O2 <$> L1 in
  let O3 := PySet.difference O2 (marks_absorbed O2 L1) in
  purgeNullEntries (PySet.union L2 O3).

(** (2b)-(2e): the state after the delivery of [M]. *)
Definition recv_complete (st : CausalOrderManager) (k : string) (t_k : Z)
    (DestsM : gset string) (O_M : list CausalMessageEntry) : CausalOrderManager :=
  COM (j st) (clock_j st) (<[ k := t_k ]> (SR_j st))
      (recv_log (j st) (LOG_j st) k t_k DestsM O_M).

(** One run of [recv] with no other thread interleaved.  [Delivered M st']
    records the call [self.controller.deliverMessage(M)]. *)
Inductive recv_result :=
| Delivered (M : string) (st' : CausalOrderManager)
| Blocked (m : string) (t_m : Z) (todo : list CausalMessageEntry)
| RecvRaised (e : exn).

Definition recv (st : CausalOrderManager) (e : Envelope) : recv_result :=
  match delivery_condition (j st) (SR_j st) (env_O_M e) with
  | DcReady =>
      Delivered (env_M e)
                (recv_complete st (env_k e) (env_t_k e) (env_Dests e) (env_O_M e))
  | DcWait m t_m todo => Blocked m t_m todo
  | DcKeyError m => RecvRaised (KeyError m)
  end.

(** ** recvHandler (lines 128-140)

    The message is unpacked and a worker thread runs [recv] on its five
    fields; the result is that of the worker run with no other thread
    interleaved.  [None] where [unpackMessage] has no value. *)
Definition recvHandler {T : JsonText} (st : CausalOrderManager) (message : wire)
  : option recv_result :=
  e ← unpackMessage message; Some (recv st e).

(** ** addPeer, delPeer (lines 263-287) *)

Definition addPeer (st : CausalOrderManager) (peer_id : string) : CausalOrderManager :=
  COM (j st) (clock_j st) (<[ peer_id := 0 ]> (SR_j st))
      (PySet.add (CME peer_id 0 ∅) (LOG_j st)).

Definition leaves (peer_id : string) (cme : CausalMessageEntry) : bool :=
  bool_decide (peer_id = i cme) || bool_decide (peer_id ∈ Dests cme).

(** [self.controller.ip] is the address the manager was built with
    ([CausalOrderManager(self.ip, self)], controller.py line 64), that is
    [j]. *)
Definition delPeer (st : CausalOrderManager) (peer_id : string)
  : CausalOrderManager + exn :=
  match SR_j st !! peer_id with
  | None => inr (KeyError peer_id)
  | Some _ =>
      let marked_cmes := List.filter (leaves peer_id) (LOG_j st) in
      let LOG := PySet.difference (LOG_j st) marked_cmes in
      inl (COM (j st) (clock_j st) (delete peer_id (SR_j st))
               (PySet.add (CME (j st) 0 ∅) LOG))
  end.

(** ** Controller.handleOutgoingMessage (controller.py, lines 211-232)

    [resolved] is the set the two branches on [target] compute from the
    user and group tables; the manager is reached only through the guard
    [if not Dests: return]. *)
Definition handleOutgoingMessage {T : JsonText} (st : CausalOrderManager)
    (peers : gset string) (resolved : gset string) (message : string) (delay : Z)
  : CausalOrderManager * list NetCall * option exn :=
  let DestsM := resolved ∖ {[ j st ]} in
  if bool_decide (DestsM = ∅) then (st, [], None)
  else send st peers message DestsM delay.

(** ** The controller's message histories and destinations (controller.py)

    A Python [str] is modelled by [string], one [ascii] per character. *)

Module PyStr.

(** An index of a slice, brought into [0, len] the way Python does it. *)
Definition adjust (len idx : Z) : Z :=
  if idx <? 0 then Z.max 0 (idx + len) else Z.min idx len.

(** [s[a:b]] *)
Definition slice (a b : Z) (s : string) : string :=
  let len := Z.of_nat (String.length s) in
  let lo := adjust len a in
  let hi := adjust len b in
  if lo <? hi then substring (Z.to_nat lo) (Z.to_nat (hi - lo)) s else "".

(** [s[a:]] *)
Definition slice_from (a : Z) (s : string) : string :=
  slice a (Z.of_nat (String.length s)) s.

(** [s.find(c)] for a one-character [c]: the lowest index, or -1. *)
Fixpoint find (c : ascii) (s : string) : Z :=
  match s with
  | EmptyString => -1
  | String a s' =>
      if Ascii.eqb a c then 0
      else let r := find c s' in if r <? 0 then -1 else r + 1
  end.

(** [c in s] for a one-character [c]. *)
Fixpoint contains (c : ascii) (s : string) : bool :=
  match s with
  | EmptyString => false
  | String a s' => Ascii.eqb a c || contains c s'
  end.

(** [s.split(c)] for a one-character separator [c]. *)
Fixpoint split (c : ascii) (s : string) : list string :=
  match s with
  | EmptyString => [EmptyString]
  | String a s' =>
      if Ascii.eqb a c then EmptyString :: split c s'
      else match split c s' with
           | piece :: pieces => String a piece :: pieces
           | [] => [String a EmptyString]
           end
  end.

End PyStr.

(** [collections.deque(maxlen=n)]: [append] puts the element at the right
    end and, when the deque is then longer than [maxlen], drops the
    leftmost one. *)
Definition deque_append (maxlen : nat) (x : string) (q : list string) : list string :=
  let q' := (q ++ [x])%list in
  if (maxlen <? List.length q')%nat then drop 1 q' else q'.

(** [self.history_maxlen] (line 56) *)
Definition history_maxlen : nat := 10.

(** [recordMessage(message)] (lines 249-260) on [self.histories], every
    one of whose values is a [deque(maxlen=self.history_maxlen)]. *)
Definition recordMessage (histories : gmap string (list string)) (message : string)
  : gmap string (list string) :=
  let header := PyStr.slice 0 3 message in
  if bool_decide (header = "MSG") then
    let message := PyStr.slice_from 4 message in
    let first_space := PyStr.find " " message in
    let target := PyStr.slice 1 first_space message in
    match histories !! target with
    | Some q => <[ target := deque_append history_maxlen message q ]> histories
    | None => histories
    end
  else histories.

(** What the first lines of [handleOutgoingMessage] (lines 218-223) can
    raise: [self.groups[target]] on an unknown group, and [...split('@')[1]]
    on a name without a second piece. *)
Inductive ctl_exn :=
| GroupKeyError (key : string)
| IndexError.

(** [x.split('@')[1]] *)
Definition host_of (x : string) : option string := PyStr.split "@" x !! 1%nat.

(** Lines 218-223: the destinations named by [target]. *)
Definition resolve_target (groups : gmap string (list string)) (target : string)
  : gset string + ctl_exn :=
  if PyStr.contains "@" target then
    match host_of (PyStr.slice_from 1 target) with
    | Some h => inl {[ h ]}
    | None => inr IndexError
    end
  else
    match groups !! target with
    | None => inr (GroupKeyError target)
    | Some members =>
        match mapM host_of members with
        | Some hs => inl (list_to_set hs)
        | None => inr IndexError
        end
    end.

(** [Controller.handleOutgoingMessage(target, message, delay)] as a whole
    (lines 211-232): the destinations are resolved, the message is recorded
    when a destination other than the peer itself remains, and the manager
    sends it. *)
Definition Controller_handleOutgoingMessage {T : JsonText}
    (groups histories : gmap string (list string)) (st : CausalOrderManager)
    (peers : gset string) (target message : string) (delay : Z)
  : gmap string (list string) * (CausalOrderManager * list NetCall * option exn)
    + ctl_exn :=
  match resolve_target groups target with
  | inr e => inr e
  | inl resolved =>
      let histories' :=
        if bool_decide (resolved ∖ {[ j st ]} = ∅) then histories
        else recordMessage histories message in
      inl (histories', handleOutgoingMessage st peers resolved message delay)
  end.

(** ** recv and the controller's callback (causal.py, line 161;
       controller.py, lines 234-247)

    [recv] calls [self.controller.deliverMessage(M)] once the delivery
    condition holds and before it assigns [SR_j[k]].  The controller holds
    the manager, and the lock behind [self.condition] is re-entrant: the
    call can raise, and it can run [send] on the manager before it returns
    (a [JNG] delivered at a member of the group is answered with an [AJG]).
    [recv] above is the case of a call that returns and leaves the manager
    alone. *)

(** An exception of the controller, by the name of its class. *)
Inductive raised := Raised (exception : string).

(** What a call into the controller does, seen from the manager: it
    returns or it raises, and it leaves the manager in some state. *)
Inductive cb_result :=
| CbReturned (st : CausalOrderManager)
| CbRaised (e : raised) (st : CausalOrderManager).

Definition callback := CausalOrderManager -> cb_result.

(** [Controller.deliverMessage(message)] (lines 234-247), seen from the
    manager.  [recordMessage] (above) works on [self.histories] only and
    [print] is output.  [updateState] (lines 132-173) and [updateGroup]
    (lines 507-523) parse JSON and work on the user and group tables; they
    enter as parameters, free to raise and to run [send]. *)
Definition deliverMessage (updateState : string -> callback)
    (updateGroup : string -> string -> callback) (message : string) : callback :=
  fun st =>
    let header := PyStr.slice 0 3 message in
    let message := PyStr.slice_from 4 message in
    if bool_decide (header = "MSG") then CbReturned st
    else if bool_decide (header = "DAT") then updateState message st
    else if bool_decide (header ∈ ["CRG"; "JNG"; "LVG"; "AJG"; "ALG"])
         then updateGroup header message st
         else CbReturned st.

(** One run of [recv] (lines 142-218) with no other thread interleaved,
    for a controller whose [deliverMessage] is [deliver]. *)
Inductive recv_cb_result :=
| CbDelivered (M : string) (st' : CausalOrderManager)
| CbBlocked (m : string) (t_m : Z) (todo : list CausalMessageEntry)
| CbScanRaised (e : exn)
| CbDeliverRaised (e : raised) (st' : CausalOrderManager).

Definition recv_cb (deliver : string -> callback) (st : CausalOrderManager)
    (e : Envelope) : recv_cb_result :=
  match delivery_condition (j st) (SR_j st) (env_O_M e) with
  | DcReady =>
      match deliver (env_M e) st with
      | CbReturned st1 =>
          CbDelivered (env_M e)
            (recv_complete st1 (env_k e) (env_t_k e) (env_Dests e) (env_O_M e))
      | CbRaised err st1 => CbDeliverRaised err st1
      end
  | DcWait m t_m todo => CbBlocked m t_m todo
  | DcKeyError m => CbScanRaised (KeyError m)
  end.

(** [recvHandler(message)] (lines 128-140) for such a controller. *)
Definition recvHandler_cb {T : JsonText} (deliver : string -> callback)
    (st : CausalOrderManager) (message : wire) : option recv_cb_result :=
  e ← unpackMessage message; Some (recv_cb deliver st e).

(** ** Chat.handleDelay (chat.py, lines 211-228)

    [int] belongs to Python; it enters as a function [py_int] that gives
    the number a text denotes, or nothing where [int] raises
    [ValueError]. *)

Inductive delay_outcome :=
| DelayNotANumber
| DelayIndexError
| DelayEmptyMessage
| DelaySend (target message : string) (delay : Z).

(** [line] is what follows the command [-delay]; [DelaySend] records the
    call [self.controller.handleOutgoingMessage('all', msg, delay)], and
    [DelayIndexError] the [IndexError] of [line[1]], which nothing
    catches. *)
Definition handleDelay (py_int : string -> option Z) (user_name line : string)
  : delay_outcome :=
  let line := PyStr.split " " line in
  match py_int (default EmptyString (line !! 0%nat)) with
  | None => DelayNotANumber
  | Some delay =>
      match line !! 1%nat with
      | None => DelayIndexError
      | Some word =>
          if bool_decide (word = EmptyString) then DelayEmptyMessage
          else DelaySend "all" ("MSG @all " ++ user_name ++ "> " ++ word) delay
      end
  end.

(** ** The object store behind step (1b)

    Entries are objects: the store is the list of their current values, an
    address is a position in it, and a Python set holds addresses.  This is
    the level at which [copy.deepcopy] and the assignments to [o.Dests] of
    lines 87-95 act. *)

Module Store.

(** The values a set of addresses holds. *)
Definition read (h : list CausalMessageEntry) (s : list nat)
  : list CausalMessageEntry :=
  omap (fun a => h !! a) s.

(** [s.add(x)] for the object at address [a]. *)
Definition add (h : list CausalMessageEntry) (a : nat) (s : list nat) : list nat :=
  match h !! a with
  | Some v => if PySet.contains v (read h s) then s else (s ++ [a])%list
  | None => s
  end.

Definition from_list (h : list CausalMessageEntry) (l : list nat) : list nat :=
  foldl (fun acc a => add h a acc) [] l.

(** [copy.deepcopy(s)]: one new object per element, then a new set built
    from the new objects. *)
Definition deepcopy (h : list CausalMessageEntry) (s : list nat)
  : list CausalMessageEntry * list nat :=
  let copies := read h s in
  let h' := (h ++ copies)%list in
  (h', from_list h' (seq (List.length h) (List.length copies))).

(** Lines 88-95: [o.Dests] is assigned for every [o] of [O_M]. *)
Definition prune_in_place (d : string) (DestsM : gset string)
    (h : list CausalMessageEntry) (O_M : list nat) : list CausalMessageEntry :=
  foldl (fun h o => match h !! o with
                    | Some v => <[ o := prune_d d DestsM v ]> h
                    | None => h
                    end) h O_M.

(** Lines 87-95. *)
Definition pruned_copy (h : list CausalMessageEntry) (LOG : list nat) (d : string)
    (DestsM : gset string) : list CausalMessageEntry * list nat :=
  let '(h1, O_M) := deepcopy h LOG in
  (prune_in_place d DestsM h1 O_M, O_M).

End Store.


(** ** Definitions used to state the properties *)

(** The simplest text for JSON values: the value itself. *)
Definition json_as_text : JsonText :=
  {| wire := json; json_dumps := fun v => v; json_loads := Some |}.

(** An empty-destination entry [l] is shadowed in [X] when [X] holds a
    strictly newer entry of the same origin. *)
Definition shadowed (X : list CausalMessageEntry) (l : CausalMessageEntry) : Prop :=
  Dests l = ∅ /\ exists l', l' ∈ X /\ i l' = i l /\ clock_i l < clock_i l'.

Definition no_stale (LOG : list CausalMessageEntry) : Prop :=
  forall l, l ∈ LOG -> ~ shadowed LOG l.

(** [l] is an empty-destination entry of [LOG] and [l'] a strictly newer
    entry of [LOG] with the same origin. *)
Definition stale_pair (LOG : list CausalMessageEntry) (l l' : CausalMessageEntry) : Prop :=
  l ∈ LOG /\ l' ∈ LOG /\ Dests l = ∅ /\ i l' = i l /\ clock_i l < clock_i l'.

(** The delivery condition in the words of the specification: a missing
    [SR_j[m]] counts as 0.  It is compared with [delivery_condition]. *)
Fixpoint delivery_condition_default0 (own : string) (SR : gmap string Z)
    (todo : list CausalMessageEntry) : dc_result :=
  match todo with
  | [] => DcReady
  | o :: rest =>
      if bool_decide (own ∈ Dests o) then
        if bool_decide (clock_i o <= default 0 (SR !! i o))
        then delivery_condition_default0 own SR rest
        else DcWait (i o) (clock_i o) (o :: rest)
      else delivery_condition_default0 own SR rest
  end.

(** An entry the scan passes without waiting or raising. *)
Definition passes (own : string) (SR : gmap string Z) (o : CausalMessageEntry) : Prop :=
  own ∈ Dests o -> exists sr, SR !! i o = Some sr /\ clock_i o <= sr.

(** A user name as [Controller.start] builds it (line 76),
    [f"{user_name}@{self.ip}"], from a name and a host without [@]. *)
Definition full_name (m : string * string) : string := (m.1 ++ "@" ++ m.2)%string.

Definition well_named (m : string * string) : Prop :=
  PyStr.contains "@" m.1 = false /\ PyStr.contains "@" m.2 = false.

(** * Properties *)

(** Case analysis on membership in a list written out. *)
Ltac in_cases H :=
  repeat (apply elem_of_cons in H as [-> | H]);
  try (by apply elem_of_nil in H).

(** ** Entries and sets of entries *)

Lemma CME_eq_true (a b : CausalMessageEntry) : CME_eq a b = true <-> a = b.
Proof.
  unfold CME_eq. rewrite bool_decide_eq_true.
  destruct a, b; simpl. split; intros H; by simplify_eq.
Qed.

Lemma CME_eq_false (a b : CausalMessageEntry) : CME_eq a b = false <-> a <> b.
Proof.
  rewrite <- CME_eq_true. destruct (CME_eq a b); split; congruence.
Qed.

Lemma contains_true (x : CausalMessageEntry) (s : list CausalMessageEntry) :
  PySet.contains x s = true <-> x ∈ s.
Proof.
  unfold PySet.contains. rewrite existsb_exists. split.
  - intros (y & Hy & Heq). apply CME_eq_true in Heq. subst y.
    by apply list_elem_of_In.
  - intros Hin. exists x. split; [by apply list_elem_of_In | by apply CME_eq_true].
Qed.

Lemma add_present (x : CausalMessageEntry) (s : list CausalMessageEntry) :
  x ∈ s -> PySet.add x s = s.
Proof.
  intros Hin. unfold PySet.add.
  apply contains_true in Hin. by rewrite Hin.
Qed.

Lemma add_absent (x : CausalMessageEntry) (s : list CausalMessageEntry) :
  x ∉ s -> PySet.add x s = (s ++ [x])%list.
Proof.
  intros Hin. unfold PySet.add.
  destruct (PySet.contains x s) eqn:E; [| done].
  apply contains_true in E. contradiction.
Qed.

Lemma elem_of_add (x y : CausalMessageEntry) (s : list CausalMessageEntry) :
  y ∈ PySet.add x s <-> y = x \/ y ∈ s.
Proof.
  destruct (decide (x ∈ s)) as [Hin | Hin].
  - rewrite add_present by done. split; [by right |]. intros [-> | H]; done.
  - rewrite add_absent by done. rewrite elem_of_app, list_elem_of_singleton. tauto.
Qed.

Lemma add_idempotent (x : CausalMessageEntry) (s : list CausalMessageEntry) :
  PySet.add x (PySet.add x s) = PySet.add x s.
Proof. apply add_present, elem_of_add. by left. Qed.

Lemma discard_head (x : CausalMessageEntry) (s : list CausalMessageEntry) :
  PySet.discard x (x :: s) = s.
Proof.
  simpl. destruct (CME_eq x x) eqn:E; [done |].
  apply CME_eq_false in E. contradiction.
Qed.

Lemma discard_skip (x y : CausalMessageEntry) (s : list CausalMessageEntry) :
  x <> y -> PySet.discard x (y :: s) = y :: PySet.discard x s.
Proof. intros Hne. simpl. apply CME_eq_false in Hne. by rewrite Hne. Qed.

Lemma discard_sublist (x : CausalMessageEntry) (s : list CausalMessageEntry) :
  PySet.discard x s `sublist_of` s.
Proof.
  induction s as [| y s IH]; [done |]. simpl.
  destruct (CME_eq x y); [by apply sublist_cons | by apply sublist_skip].
Qed.

Lemma difference_sublist (m s : list CausalMessageEntry) :
  PySet.difference s m `sublist_of` s.
Proof.
  unfold PySet.difference. revert s.
  induction m as [| x m IH]; intros s; simpl; [done |].
  etrans; [apply IH | apply discard_sublist].
Qed.

Lemma difference_skip (y : CausalMessageEntry) (m s : list CausalMessageEntry) :
  y ∉ m -> PySet.difference (y :: s) m = y :: PySet.difference s m.
Proof.
  unfold PySet.difference. revert s.
  induction m as [| x m IH]; intros s Hy; [done |].
  apply not_elem_of_cons in Hy as [Hne Hy]. cbn [foldl].
  rewrite discard_skip by done. by apply IH.
Qed.

(** Discarding the marked elements of a set, in the order they were
    marked, keeps exactly the unmarked ones. *)
Lemma difference_marked (P : CausalMessageEntry -> bool) (s : list CausalMessageEntry) :
  PySet.difference s (List.filter P s) = List.filter (fun x => negb (P x)) s.
Proof.
  induction s as [| y s IH]; [done |]. cbn [List.filter].
  destruct (P y) eqn:E; cbn [negb].
  - unfold PySet.difference in *. cbn [foldl]. rewrite discard_head. apply IH.
  - rewrite difference_skip; [by rewrite IH |].
    intros Hin. apply list_elem_of_In, filter_In in Hin as [_ HP]. congruence.
Qed.

Lemma elem_of_filter_bool (P : CausalMessageEntry -> bool) (x : CausalMessageEntry)
    (s : list CausalMessageEntry) :
  x ∈ List.filter P s <-> x ∈ s /\ P x = true.
Proof. rewrite !list_elem_of_In. apply filter_In. Qed.

(** ** purge-null and the shadowing of empty entries *)

Lemma newerEntryExists_true (s : string) (t : Z) (X : list CausalMessageEntry) :
  newerEntryExists s t X = true <-> exists x, x ∈ X /\ i x = s /\ t < clock_i x.
Proof.
  unfold newerEntryExists. rewrite existsb_exists. split.
  - intros (x & Hin & Hx). apply andb_true_iff in Hx as [H1 H2].
    apply bool_decide_eq_true in H1, H2. exists x.
    split; [by apply list_elem_of_In | done].
  - intros (x & Hin & H1 & H2). exists x. split; [by apply list_elem_of_In |].
    apply andb_true_iff. by rewrite !bool_decide_eq_true.
Qed.

Lemma stale_in_true (X : list CausalMessageEntry) (l : CausalMessageEntry) :
  stale_in X l = true <-> shadowed X l.
Proof.
  unfold stale_in, shadowed.
  rewrite andb_true_iff, bool_decide_eq_true, newerEntryExists_true.
  rewrite size_empty_iff. by unfold_leibniz.
Qed.

Lemma purgeNullEntries_filter (LOG : list CausalMessageEntry) :
  purgeNullEntries LOG = List.filter (fun l => negb (stale_in LOG l)) LOG.
Proof. unfold purgeNullEntries. apply difference_marked. Qed.

Lemma elem_of_purgeNullEntries (LOG : list CausalMessageEntry) (l : CausalMessageEntry) :
  l ∈ purgeNullEntries LOG <-> l ∈ LOG /\ ~ shadowed LOG l.
Proof.
  rewrite purgeNullEntries_filter, elem_of_filter_bool, negb_true_iff.
  rewrite <- stale_in_true. by destruct (stale_in LOG l); intuition.
Qed.

Lemma shadowed_mono (X Y : list CausalMessageEntry) (l : CausalMessageEntry) :
  (forall x, x ∈ X -> x ∈ Y) -> shadowed X l -> shadowed Y l.
Proof. intros Hsub (HD & l' & Hin & H1 & H2). split; [done |]. exists l'. auto. Qed.

Lemma purgeNullEntries_no_stale (LOG : list CausalMessageEntry) :
  no_stale (purgeNullEntries LOG).
Proof.
  intros l Hl Hsh. apply elem_of_purgeNullEntries in Hl as [_ Hn].
  apply Hn. eapply shadowed_mono; [| exact Hsh].
  intros x Hx. by apply elem_of_purgeNullEntries in Hx as [? _].
Qed.

(** ** C4: identity of entries *)

(** C4, as stated, fails: two entries with the same [(origin, seq)] and
    different [dests] hash alike but do not compare equal. *)
Lemma CME_eq_looks_at_Dests :
  CME_hash (CME "a" 1 {[ "b" ]}) = CME_hash (CME "a" 1 ∅)
  /\ CME_eq (CME "a" 1 {[ "b" ]}) (CME "a" 1 ∅) = false.
Proof. split; [reflexivity | by vm_compute]. Qed.

(** C4, amended: hashing uses [(origin, seq)] only, while equality is the
    generated field-wise comparison, so two entries are equal iff origin, seq
    and dests all match; equal entries hash alike. *)
Theorem CME_identity (a b : CausalMessageEntry) :
  (CME_eq a b = true <-> i a = i b /\ clock_i a = clock_i b /\ Dests a = Dests b)
  /\ (CME_hash a = CME_hash b <-> i a = i b /\ clock_i a = clock_i b)
  /\ (CME_eq a b = true -> CME_hash a = CME_hash b).
Proof.
  split; [| split].
  - rewrite CME_eq_true. destruct a, b; simpl. split.
    + intros H. by simplify_eq.
    + intros (-> & -> & ->). done.
  - unfold CME_hash. split.
    + intros H. by simplify_eq.
    + intros [-> ->]. done.
  - intros H. apply CME_eq_true in H. by subst.
Qed.

(** ** C10: delPeer on an unknown peer *)

(** C10: [delPeer(p)] raises [KeyError] when [p] has no entry in [SR_j]; after
    a [delPeer(p)] that succeeded, a second [delPeer(p)] raises; [addPeer]
    never raises and a second [addPeer(p)] changes nothing. *)
Theorem delPeer_not_idempotent (st : CausalOrderManager) (p : string) :
  (SR_j st !! p = None -> delPeer st p = inr (KeyError p))
  /\ (forall st', delPeer st p = inl st' -> delPeer st' p = inr (KeyError p))
  /\ addPeer (addPeer st p) p = addPeer st p.
Proof.
  split; [| split].
  - intros H. unfold delPeer. by rewrite H.
  - intros st' H. unfold delPeer in H.
    destruct (SR_j st !! p) eqn:E; [| done].
    injection H as <-. unfold delPeer. simpl. by rewrite lookup_delete_eq.
  - unfold addPeer. simpl. by rewrite insert_insert_eq, add_idempotent.
Qed.

Lemma delPeer_not_idempotent_witness :
  exists st',
    delPeer (addPeer (init "a") "b") "b" = inl st'
    /\ delPeer st' "b" = inr (KeyError "b")
    /\ delPeer st' "c" = inr (KeyError "c").
Proof.
  eexists. split; [reflexivity |]. split.
  - apply (delPeer_not_idempotent (addPeer (init "a") "b") "b"). reflexivity.
  - apply delPeer_not_idempotent. reflexivity.
Defined.

(** ** C9: the values of SR_j *)

(** C9, as stated, fails: after peer [a] has delivered message 5 of [b],
    [addPeer(b)] puts [SR_j[b]] back to 0, and the delivery of an envelope of
    [b] stamped 3 puts it back to 3. *)
Lemma SR_j_can_decrease :
  let st := recv_complete (addPeer (init "a") "b") "b" 5 {[ "a" ]} [] in
  SR_j st !! "b" = Some 5
  /\ SR_j (addPeer st "b") !! "b" = Some 0
  /\ exists st', recv st (Env "b" 3 "x" {[ "a" ]} []) = Delivered "x" st'
                 /\ SR_j st' !! "b" = Some 3.
Proof.
  split; [reflexivity |]. split; [reflexivity |].
  eexists. split; reflexivity.
Qed.

Lemma SR_j_send {T : JsonText} (st : CausalOrderManager) (peers : gset string)
    (M : string) (DestsM : gset string) (delay : Z) :
  SR_j (send st peers M DestsM delay).1.1 = SR_j st.
Proof.
  unfold send.
  destruct (send_loop _ peers M DestsM delay (elements DestsM)) as [calls [e |]]; done.
Qed.

(** C9, amended: [send] leaves [SR_j] as it is and [delPeer(p)] only removes
    [SR_j[p]]; [receive] assigns [SR_j[k] <- t_k] and [addPeer(p)] assigns
    [SR_j[p] <- 0] unconditionally and change no other entry, so an existing
    value does not decrease exactly when [t_k] is at least the old value,
    respectively when the old value is at most 0. *)
Theorem SR_j_updates {T : JsonText} (st : CausalOrderManager) (k : string) (v : Z) :
  SR_j st !! k = Some v ->
  (forall peers M DestsM delay,
      SR_j (send st peers M DestsM delay).1.1 !! k = Some v)
  /\ (forall p st', delPeer st p = inl st' ->
        SR_j st' !! k = if decide (k = p) then None else Some v)
  /\ (forall e M st', recv st e = Delivered M st' ->
        SR_j st' !! k = Some (if decide (k = env_k e) then env_t_k e else v)
        /\ (forall v', SR_j st' !! k = Some v' ->
              (v <= v' <-> (k = env_k e -> v <= env_t_k e))))
  /\ (forall p,
        SR_j (addPeer st p) !! k = Some (if decide (k = p) then 0 else v)
        /\ (forall v', SR_j (addPeer st p) !! k = Some v' ->
              (v <= v' <-> (k = p -> v <= 0)))).
Proof.
  intros Hk. repeat split.
  - intros. by rewrite SR_j_send.
  - intros p st' H. unfold delPeer in H.
    destruct (SR_j st !! p) eqn:E; [| done]. injection H as <-. simpl.
    case_decide as Hkp.
    + subst. apply lookup_delete_eq.
    + by rewrite lookup_delete_ne.
  - unfold recv in H.
    destruct (delivery_condition _ _ _); try done.
    injection H as _ <-. simpl.
    case_decide as Hkp.
    + subst. apply lookup_insert_eq.
    + by rewrite lookup_insert_ne.
  - unfold recv in H.
    destruct (delivery_condition _ _ _); try done.
    injection H as _ <-. simpl in H0.
    destruct (decide (k = env_k e)) as [-> | Hkp].
    + rewrite lookup_insert_eq in H0. injection H0 as <-. tauto.
    + rewrite lookup_insert_ne in H0 by done. simplify_eq. tauto.
  - unfold recv in H.
    destruct (delivery_condition _ _ _); try done.
    injection H as _ <-. simpl in H0.
    destruct (decide (k = env_k e)) as [-> | Hkp].
    + rewrite lookup_insert_eq in H0. injection H0 as <-. tauto.
    + rewrite lookup_insert_ne in H0 by done. simplify_eq. intros _. lia.
  - unfold addPeer. simpl. case_decide as Hkp.
    + subst. apply lookup_insert_eq.
    + by rewrite lookup_insert_ne.
  - unfold addPeer in H. simpl in H.
    destruct (decide (k = p)) as [-> | Hkp].
    + rewrite lookup_insert_eq in H. injection H as <-. tauto.
    + rewrite lookup_insert_ne in H by done. simplify_eq. tauto.
  - unfold addPeer in H. simpl in H.
    destruct (decide (k = p)) as [-> | Hkp].
    + rewrite lookup_insert_eq in H. injection H as <-. tauto.
    + rewrite lookup_insert_ne in H by done. simplify_eq. intros _. lia.
Qed.

Lemma SR_j_updates_witness :
  SR_j (send (T := json_as_text) (init "a") ∅ "m" ∅ 0).1.1 !! "a" = Some 0
  /\ SR_j (addPeer (init "a") "b") !! "a" = Some 0.
Proof.
  pose proof (SR_j_updates (T := json_as_text) (init "a") "a" 0 eq_refl)
    as (Hsend & _ & _ & Hadd).
  split; [apply Hsend | apply (Hadd "b")].
Defined.

(** ** The delivery condition and the origins it looks up *)

Lemma delivery_condition_KeyError (own : string) (SR : gmap string Z)
    (todo : list CausalMessageEntry) (m : string) :
  delivery_condition own SR todo = DcKeyError m <->
  exists pre o post,
    todo = (pre ++ o :: post)%list /\ Forall (passes own SR) pre
    /\ own ∈ Dests o /\ i o = m /\ SR !! m = None.
Proof.
  induction todo as [| o rest IH]; simpl.
  - split; [done |]. intros (pre & o & post & H & _). by destruct pre.
  - case_bool_decide as Hown.
    + destruct (SR !! i o) as [sr |] eqn:Hsr.
      * case_bool_decide as Hle.
        -- rewrite IH. split.
           ++ intros (pre & o' & post & -> & Hpre & H).
              exists (o :: pre), o', post. split; [done |]. split; [| done].
              constructor; [| done]. intros _. eauto.
           ++ intros (pre & o' & post & Heq & Hpre & Ho' & Hi & Hm).
              destruct pre as [| p pre]; simplify_eq/=.
              exists pre, o', post. by inversion Hpre.
        -- split; [done |].
           intros (pre & o' & post & Heq & Hpre & Ho' & Hi & Hm).
           destruct pre as [| p pre]; simplify_eq/=.
           inversion Hpre as [| ? ? Hp _]; subst.
           destruct (Hp Hown) as (sr' & Hsr' & Hle'). simplify_eq. lia.
      * split.
        -- intros [= <-]. exists [], o, rest. by repeat split.
        -- intros (pre & o' & post & Heq & Hpre & Ho' & Hi & Hm).
           destruct pre as [| p pre]; simplify_eq/=; [done |].
           inversion Hpre as [| ? ? Hp _]; subst.
           destruct (Hp Hown) as (sr' & Hsr' & _). simplify_eq.
    + rewrite IH. split.
      * intros (pre & o' & post & -> & Hpre & H).
        exists (o :: pre), o', post. split; [done |]. split; [| done].
        constructor; [| done]. intros ?. contradiction.
      * intros (pre & o' & post & Heq & Hpre & Ho' & Hi & Hm).
        destruct pre as [| p pre]; simplify_eq/=; [done |].
        exists pre, o', post. by inversion Hpre.
Qed.

Lemma delivery_condition_known (own : string) (SR : gmap string Z)
    (todo : list CausalMessageEntry) :
  (forall o, o ∈ todo -> own ∈ Dests o -> is_Some (SR !! i o)) ->
  delivery_condition own SR todo = delivery_condition_default0 own SR todo.
Proof.
  induction todo as [| o rest IH]; intros Hknown; simpl; [done |].
  rewrite IH by (intros o' Ho'; apply Hknown; by right).
  case_bool_decide as Hown; [| done].
  destruct (Hknown o) as [sr Hsr]; [by left | done |].
  rewrite Hsr. simpl. done.
Qed.

Lemma delivery_condition_default0_total (own : string) (SR : gmap string Z)
    (todo : list CausalMessageEntry) (m : string) :
  delivery_condition_default0 own SR todo <> DcKeyError m.
Proof.
  induction todo as [| o rest IH]; simpl; [done |].
  repeat case_bool_decide; done.
Qed.

(** ** C2: the receiver's own id in the piggy-backed entries *)

Lemma own_in_chars (own : string) :
  own ∈ chars own <-> String.length own = 1%nat.
Proof.
  unfold chars. rewrite list_elem_of_fmap. split.
  - intros (c & -> & _). reflexivity.
  - destruct own as [| c [| c' rest]]; simpl; try done.
    intros _. exists c. split; [done | by left].
Qed.

(** What line 167 does to the receiver's id: it goes only when the id is a
    single character. *)
Lemma strip_own_keeps (own : string) (o : CausalMessageEntry) :
  own ∈ Dests (strip_own own o) <-> own ∈ Dests o /\ String.length own <> 1%nat.
Proof.
  unfold strip_own. simpl.
  rewrite elem_of_difference, elem_of_list_to_set, own_in_chars. done.
Qed.

(** C2, at an input where the code departs from it: peer 10.0.0.1 sends its
    first message to 10.0.0.2; after the delivery the log of 10.0.0.2 holds
    the entry of that message with 10.0.0.2 still among its dests. *)
Theorem recv_keeps_own_id :
  let s := "10.0.0.1" in
  let r := "10.0.0.2" in
  let O_M := build_O_M (LOG_j (addPeer (init s) r)) r {[ r ]} in
  exists st',
    recv (addPeer (init r) s) (Env s 1 "MSG hi" {[ r ]} O_M) = Delivered "MSG hi" st'
    /\ LOG_j st' = [CME r 0 ∅; CME s 1 {[ r ]}]
    /\ r ∈ Dests (CME s 1 {[ r ]}).
Proof.
  simpl. eexists. split; [reflexivity |]. split; [by vm_compute |].
  simpl. by apply elem_of_singleton.
Qed.

(** ** C5: send with no destination *)

(** C5, as stated, fails for the manager's [send]: on the fresh manager an
    empty destination set moves the clock to 1 and adds an entry to the
    log. *)
Lemma send_empty_changes_state :
  let r := send (T := json_as_text) (init "a") ∅ "m" ∅ 0 in
  r.2 = None /\ r.1.2 = []
  /\ clock_j r.1.1 = 1
  /\ LOG_j r.1.1 = [CME "a" 0 ∅; CME "a" 1 ∅]
  /\ LOG_j (init "a") = [CME "a" 0 ∅].
Proof. repeat split; reflexivity. Qed.

Lemma with_Dests_same (l : CausalMessageEntry) : with_Dests (Dests l) l = l.
Proof. by destruct l. Qed.

Lemma shrink_by_empty (LOG : list CausalMessageEntry) :
  (fun l => with_Dests (Dests l ∖ ∅) l) <$> LOG = LOG.
Proof.
  induction LOG as [| l LOG IH]; [done |]. cbn [fmap list_fmap] in *.
  rewrite IH, difference_empty_L, with_Dests_same. done.
Qed.

(** C5, amended: the manager's [send] with an empty destination set raises
    nothing, schedules no network call and leaves [SR_j] as it is, but it
    still advances [clock_j] by one, purges the log and inserts
    [(j, clock_j, {})]; the silent no-op is the guard of
    [Controller.handleOutgoingMessage], which returns before [send] when no
    destination other than the peer itself remains. *)
Theorem send_empty {T : JsonText} (st : CausalOrderManager) (peers : gset string)
    (M : string) (delay : Z) :
  send st peers M ∅ delay =
    (COM (j st) (clock_j st + 1) (SR_j st)
         (PySet.union (purgeNullEntries (LOG_j st)) [CME (j st) (clock_j st + 1) ∅]),
     [], None)
  /\ (forall resolved : gset string,
        resolved ⊆ {[ j st ]} ->
        handleOutgoingMessage st peers resolved M delay = (st, [], None)).
Proof.
  split.
  - unfold send, send_log, with_LOG. rewrite elements_empty. simpl.
    by rewrite shrink_by_empty.
  - intros resolved Hsub. unfold handleOutgoingMessage.
    rewrite bool_decide_eq_true_2; [done |]. set_solver.
Qed.

Lemma send_empty_witness :
  handleOutgoingMessage (T := json_as_text) (init "a") ∅ {[ "a" ]} "MSG hi" 0
  = (init "a", [], None).
Proof.
  apply (send_empty (T := json_as_text) (init "a") ∅ "MSG hi" 0).
  simpl. set_solver.
Defined.

(** ** C6: empty entries shadowed by newer ones *)

Lemma elem_of_fold_add (t s : list CausalMessageEntry) (y : CausalMessageEntry) :
  y ∈ foldl (fun acc x => PySet.add x acc) s t <-> y ∈ s \/ y ∈ t.
Proof.
  revert s. induction t as [| x t IH]; intros s; simpl.
  - rewrite elem_of_nil. tauto.
  - rewrite IH, elem_of_add, elem_of_cons. tauto.
Qed.

Lemma elem_of_union (s t : list CausalMessageEntry) (y : CausalMessageEntry) :
  y ∈ PySet.union s t <-> y ∈ s \/ y ∈ t.
Proof.
  destruct s as [| x s].
  - simpl. rewrite elem_of_nil. tauto.
  - apply elem_of_fold_add.
Qed.

Lemma no_stale_pairs (LOG : list CausalMessageEntry) :
  no_stale LOG <-> forall l l', ~ stale_pair LOG l l'.
Proof.
  unfold no_stale, shadowed, stale_pair. split.
  - intros H l l' (Hl & Hl' & HD & Hi & Hc). apply (H l Hl). eauto.
  - intros H l Hl (HD & l' & Hl' & Hi & Hc). apply (H l l'). eauto.
Qed.

(** Inserting [x] into a log without shadowed entries: every shadowing
    that appears involves [x]. *)
Lemma stale_pair_inserted (LOG LOG' : list CausalMessageEntry)
    (x l l' : CausalMessageEntry) :
  no_stale LOG ->
  (forall y, y ∈ LOG' -> y ∈ LOG \/ y = x) ->
  (forall y, y ∈ LOG -> y ∈ LOG') ->
  stale_pair LOG' l l' -> l = x \/ l' = x.
Proof.
  intros Hns Hsub Hsup (Hl & Hl' & HD & Hi & Hc).
  destruct (Hsub l Hl) as [Hl0 | ->]; [| by left].
  destruct (Hsub l' Hl') as [Hl0' | ->]; [| by right].
  exfalso. apply (proj1 (no_stale_pairs LOG) Hns l l'). by repeat split.
Qed.

Lemma stale_pair_sub (LOG LOG' : list CausalMessageEntry) (l l' : CausalMessageEntry) :
  (forall y, y ∈ LOG' -> y ∈ LOG) -> stale_pair LOG' l l' -> stale_pair LOG l l'.
Proof. intros Hsub (Hl & Hl' & H). split; [auto |]. split; [auto | done]. Qed.

Lemma no_stale_sub (LOG LOG' : list CausalMessageEntry) :
  (forall y, y ∈ LOG' -> y ∈ LOG) -> no_stale LOG -> no_stale LOG'.
Proof.
  intros Hsub H. apply no_stale_pairs. intros l l' Hp.
  apply (proj1 (no_stale_pairs LOG) H l l'). by eapply stale_pair_sub.
Qed.

(** C6, as stated, fails: the first [send] of a fresh manager leaves the
    seed [(a, 0, {})] in the log beside the newer [(a, 1, {b})]; and
    [addPeer(b)] inserts [(b, 0, {})] beside a logged [(b, 1, {})]. *)
Lemma stale_entry_after_send :
  let r := send (T := json_as_text) (addPeer (init "a") "b") {[ "b" ]} "m" {[ "b" ]} 0 in
  let st := recv_complete (addPeer (init "a") "b") "b" 1 {[ "a" ]} [CME "b" 0 ∅] in
  r.2 = None
  /\ ~ no_stale (LOG_j r.1.1)
  /\ no_stale (LOG_j st) /\ ~ no_stale (LOG_j (addPeer st "b")).
Proof.
  cbv zeta.
  assert (LOG_j (send (T := json_as_text) (addPeer (init "a") "b")
                   {[ "b" ]} "m" {[ "b" ]} 0).1.1
          = [CME "a" 0 ∅; CME "b" 0 ∅; CME "a" 1 {[ "b" ]}]) as -> by by vm_compute.
  assert (LOG_j (recv_complete (addPeer (init "a") "b") "b" 1 {[ "a" ]} [CME "b" 0 ∅])
          = [CME "a" 0 ∅; CME "b" 1 ∅]) as Hst by by vm_compute.
  assert (LOG_j (addPeer (recv_complete (addPeer (init "a") "b") "b" 1 {[ "a" ]}
                            [CME "b" 0 ∅]) "b")
          = [CME "a" 0 ∅; CME "b" 1 ∅; CME "b" 0 ∅]) as -> by by vm_compute.
  rewrite Hst. split; [reflexivity |]. split; [| split].
  - intros H. apply (H (CME "a" 0 ∅)); [set_solver |].
    split; [done |]. exists (CME "a" 1 {[ "b" ]}). split; [set_solver | done].
  - intros l Hl (HD & l' & Hl' & Hi & Hc).
    in_cases Hl; in_cases Hl'; simpl in *; first [done | lia].
  - intros H. apply (H (CME "b" 0 ∅)); [set_solver |].
    split; [done |]. exists (CME "b" 1 ∅). split; [set_solver | done].
Qed.

Lemma recv_log_no_stale (own : string) (LOG : list CausalMessageEntry) (k : string)
    (t_k : Z) (DestsM : gset string) (O_M : list CausalMessageEntry) :
  no_stale (recv_log own LOG k t_k DestsM O_M).
Proof. unfold recv_log. apply purgeNullEntries_no_stale. Qed.

Lemma send_log_stale_pair (LOG : list CausalMessageEntry) (own : string) (clock : Z)
    (DestsM : gset string) (l l' : CausalMessageEntry) :
  stale_pair (send_log LOG own clock DestsM) l l' ->
  l = CME own clock DestsM \/ l' = CME own clock DestsM.
Proof.
  unfold send_log.
  apply stale_pair_inserted with
    (LOG := purgeNullEntries ((fun l => with_Dests (Dests l ∖ DestsM) l) <$> LOG)).
  - apply purgeNullEntries_no_stale.
  - intros y Hy. apply elem_of_union in Hy as [Hy | Hy]; [by left |].
    right. by apply list_elem_of_singleton in Hy.
  - intros y Hy. apply elem_of_union. by left.
Qed.

(** C6, amended: after each completed [receive] the log holds no
    empty-destination entry beside a strictly newer entry of the same origin
    (purge-null runs last).  [send] purges before it inserts
    [(j, clock_j, Dests)], so after a completed [send] any such pair involves
    the entry just inserted.  [addPeer] and [delPeer] insert [(p, 0, {})],
    respectively [(j, 0, {})], without purging: from a log without such
    pairs, any pair found afterwards involves the inserted entry. *)
Theorem no_stale_at_rest {T : JsonText} (st : CausalOrderManager) :
  (forall e M st', recv st e = Delivered M st' -> no_stale (LOG_j st'))
  /\ (forall peers M DestsM delay st' calls l l',
        send st peers M DestsM delay = (st', calls, None) ->
        stale_pair (LOG_j st') l l' ->
        l = CME (j st) (clock_j st + 1) DestsM
        \/ l' = CME (j st) (clock_j st + 1) DestsM)
  /\ (no_stale (LOG_j st) ->
      (forall p l l',
          stale_pair (LOG_j (addPeer st p)) l l' -> l = CME p 0 ∅ \/ l' = CME p 0 ∅)
      /\ (forall p st' l l',
            delPeer st p = inl st' ->
            stale_pair (LOG_j st') l l' ->
            l = CME (j st) 0 ∅ \/ l' = CME (j st) 0 ∅)).
Proof.
  split; [| split].
  - intros e M st' H. unfold recv in H.
    destruct (delivery_condition _ _ _); try done.
    injection H as _ <-. apply recv_log_no_stale.
  - intros peers M DestsM delay st' calls l l' H Hp. unfold send in H.
    destruct (send_loop _ peers M DestsM delay (elements DestsM)) as [cs [e |]];
      [done |].
    injection H as <- _. simpl in Hp. by apply send_log_stale_pair in Hp.
  - intros Hns. split.
    + intros p l l'. unfold addPeer. simpl.
      apply stale_pair_inserted with (LOG := LOG_j st); [done | |].
      * intros y Hy. apply elem_of_add in Hy. tauto.
      * intros y Hy. apply elem_of_add. by right.
    + intros p st' l l' H. unfold delPeer in H.
      destruct (SR_j st !! p); [| done]. injection H as <-. simpl.
      set (kept := PySet.difference (LOG_j st) (List.filter (leaves p) (LOG_j st))).
      assert (forall y, y ∈ kept -> y ∈ LOG_j st) as Hkept.
      { intros y Hy. eapply elem_of_sublist; [exact Hy | apply difference_sublist]. }
      apply stale_pair_inserted with (LOG := kept).
      * by apply (no_stale_sub (LOG_j st)).
      * intros y Hy. apply elem_of_add in Hy. tauto.
      * intros y Hy. apply elem_of_add. by right.
Qed.

Lemma no_stale_init (own : string) : no_stale (LOG_j (init own)).
Proof.
  intros l Hl (HD & l' & Hl' & Hi & Hc). simpl in Hl, Hl'.
  in_cases Hl; in_cases Hl'. simpl in Hc. lia.
Qed.

Lemma no_stale_at_rest_witness :
  no_stale (LOG_j (recv_complete (addPeer (init "a") "b") "b" 1 {[ "a" ]} [CME "b" 0 ∅]))
  /\ (forall l l', stale_pair (LOG_j (addPeer (init "a") "b")) l l' ->
                   l = CME "b" 0 ∅ \/ l' = CME "b" 0 ∅).
Proof.
  destruct (no_stale_at_rest (T := json_as_text) (addPeer (init "a") "b"))
    as (Hrecv & _ & _).
  destruct (no_stale_at_rest (T := json_as_text) (init "a")) as (_ & _ & Hpeer).
  split.
  - apply (Hrecv (Env "b" 1 "m" {[ "a" ]} [CME "b" 0 ∅]) "m"). reflexivity.
  - apply (Hpeer (no_stale_init "a")).
Defined.

(** ** C7: the codec round trip *)

Lemma as_set_json_of_set (D : gset string) : as_set (json_of_set D) = Some D.
Proof.
  unfold as_set, json_of_set.
  rewrite (mapM_fmap_Some as_str JStr) by done. simpl.
  by rewrite list_to_set_elements_L.
Qed.

Lemma as_entry_json_of_entry (cme : CausalMessageEntry) :
  as_entry (json_of_entry cme) = Some cme.
Proof.
  unfold as_entry, json_of_entry. cbv beta iota.
  rewrite as_set_json_of_set. simpl. by destruct cme.
Qed.

Lemma fold_add_fresh (l acc : list CausalMessageEntry) :
  NoDup (acc ++ l) ->
  foldl (fun acc x => PySet.add x acc) acc l = (acc ++ l)%list.
Proof.
  revert acc. induction l as [| x l IH]; intros acc Hnd; simpl.
  - by rewrite app_nil_r.
  - rewrite add_absent.
    + rewrite IH; rewrite <- app_assoc; done.
    + apply NoDup_app in Hnd as (_ & Hdisj & _).
      intros Hin. apply (Hdisj x Hin). by left.
Qed.

(** A list without repetition is the set built from it. *)
Lemma from_list_NoDup (l : list CausalMessageEntry) :
  NoDup l -> PySet.from_list l = l.
Proof. intros Hnd. unfold PySet.from_list. by rewrite fold_add_fresh. Qed.

(** C7: for every envelope whose [O_M] is a set (no entry twice), empty
    sets included, unpacking the packed envelope gives the envelope back,
    field by field. *)
Theorem codec_round_trip {T : JsonText} {L : JsonTextLaws T} (x : Envelope) :
  NoDup (env_O_M x) ->
  unpackMessage
    (packMessage (env_k x) (env_t_k x) (env_M x) (env_Dests x) (env_O_M x))
  = Some x.
Proof.
  intros Hnd. unfold unpackMessage, packMessage.
  rewrite loads_dumps. cbv beta iota.
  rewrite as_set_json_of_set.
  rewrite (mapM_fmap_Some as_entry json_of_entry) by apply as_entry_json_of_entry.
  simpl. rewrite from_list_NoDup by done. by destruct x.
Qed.

Lemma json_as_text_laws : JsonTextLaws json_as_text.
Proof. by constructor. Qed.

Lemma codec_round_trip_witness :
  unpackMessage (T := json_as_text)
    (packMessage (T := json_as_text) "a" 1 "MSG hi" ∅ [])
  = Some (Env "a" 1 "MSG hi" ∅ [])
  /\ unpackMessage (T := json_as_text)
       (packMessage (T := json_as_text) "a" 2 "" {[ "b"; "c" ]}
          [CME "a" 0 ∅; CME "a" 1 {[ "b" ]}])
     = Some (Env "a" 2 "" {[ "b"; "c" ]} [CME "a" 0 ∅; CME "a" 1 {[ "b" ]}]).
Proof.
  assert (NoDup [CME "a" 0 ∅; CME "a" 1 {[ "b" ]}]) as Hnd.
  { apply NoDup_cons. split; [| apply NoDup_singleton].
    intros Hin. apply list_elem_of_singleton in Hin. discriminate Hin. }
  split.
  - exact (codec_round_trip (L := json_as_text_laws)
             (Env "a" 1 "MSG hi" ∅ []) NoDup_nil_2).
  - exact (codec_round_trip (L := json_as_text_laws)
             (Env "a" 2 "" {[ "b"; "c" ]} [CME "a" 0 ∅; CME "a" 1 {[ "b" ]}]) Hnd).
Defined.

(** ** The object store: reading, copying and pruning in place *)












Lemma drop_stale_sublist (O_M : list CausalMessageEntry) :
  drop_stale O_M `sublist_of` O_M.
Proof.
  unfold drop_stale. generalize O_M at 1 3 as cur. generalize O_M as l.
  induction l as [| o l IH]; intros cur; [done |]. cbn [foldl].
  etrans; [apply IH |].
  destruct (stale_in cur o); [apply difference_sublist | done].
Qed.

(** * Further properties of the manager *)

(** ** recv: when it delivers and when it waits *)

Lemma delivery_condition_Ready (own : string) (SR : gmap string Z)
    (todo : list CausalMessageEntry) :
  delivery_condition own SR todo = DcReady <-> Forall (passes own SR) todo.
Proof.
  induction todo as [| o rest IH]; simpl.
  - split; [constructor | done].
  - rewrite Forall_cons, <- IH. unfold passes.
    case_bool_decide as Hown.
    + destruct (SR !! i o) as [sr |] eqn:Hsr.
      * case_bool_decide as Hle.
        -- split; [| tauto]. intros H. split; [| done]. intros _. eauto.
        -- split; [done |]. intros [Hp _].
           destruct (Hp Hown) as (sr' & Hsr' & Hle'). simplify_eq. lia.
      * split; [done |]. intros [Hp _].
        destruct (Hp Hown) as (sr' & Hsr' & _). simplify_eq.
    + split; [| tauto]. intros H. split; [| done]. intros ?. contradiction.
Qed.

Lemma delivery_condition_Wait (own : string) (SR : gmap string Z)
    (todo rest : list CausalMessageEntry) (m : string) (t_m : Z) :
  delivery_condition own SR todo = DcWait m t_m rest <->
  exists pre o post,
    todo = (pre ++ o :: post)%list /\ rest = o :: post
    /\ Forall (passes own SR) pre
    /\ own ∈ Dests o /\ i o = m /\ clock_i o = t_m
    /\ exists sr, SR !! m = Some sr /\ sr < t_m.
Proof.
  induction todo as [| o todo' IH]; simpl.
  - split; [done |]. intros (pre & o & post & H & _). by destruct pre.
  - assert (forall P : Prop,
      (exists pre o' post,
          o :: todo' = (pre ++ o' :: post)%list /\ rest = o' :: post
          /\ Forall (passes own SR) pre
          /\ own ∈ Dests o' /\ i o' = m /\ clock_i o' = t_m
          /\ exists sr, SR !! m = Some sr /\ sr < t_m) ->
      (rest = o :: todo' -> own ∈ Dests o -> i o = m -> clock_i o = t_m ->
       (exists sr, SR !! m = Some sr /\ sr < t_m) -> P) ->
      (passes own SR o ->
       (exists pre o' post,
           todo' = (pre ++ o' :: post)%list /\ rest = o' :: post
           /\ Forall (passes own SR) pre
           /\ own ∈ Dests o' /\ i o' = m /\ clock_i o' = t_m
           /\ exists sr, SR !! m = Some sr /\ sr < t_m) -> P) -> P) as Hcases.
    { intros P (pre & o' & post & Heq & Hrest & Hpre & Hrem) Hhead Htail.
      destruct pre as [| p pre]; simplify_eq/=.
      - destruct Hrem as (? & ? & ? & ?). by apply Hhead.
      - apply Forall_cons in Hpre as [Hp Hpre]. apply Htail; [done |].
        by exists pre, o', post. }
    assert (passes own SR o ->
      (exists pre o' post,
          todo' = (pre ++ o' :: post)%list /\ rest = o' :: post
          /\ Forall (passes own SR) pre
          /\ own ∈ Dests o' /\ i o' = m /\ clock_i o' = t_m
          /\ exists sr, SR !! m = Some sr /\ sr < t_m) ->
      (exists pre o' post,
          o :: todo' = (pre ++ o' :: post)%list /\ rest = o' :: post
          /\ Forall (passes own SR) pre
          /\ own ∈ Dests o' /\ i o' = m /\ clock_i o' = t_m
          /\ exists sr, SR !! m = Some sr /\ sr < t_m)) as Hextend.
    { intros Hp (pre & o' & post & -> & Hrest & Hpre & Hrem).
      exists (o :: pre), o', post. split; [done |]. split; [done |].
      split; [by constructor | done]. }
    case_bool_decide as Hown.
    + destruct (SR !! i o) as [sr |] eqn:Hsr.
      * case_bool_decide as Hle.
        -- rewrite IH. split.
           ++ apply Hextend. intros _. eauto.
           ++ intros H. apply (Hcases _ H); [| done].
              intros _ _ <- <- (sr' & Hsr' & Hlt). simplify_eq. lia.
        -- split.
           ++ intros [= <- <- <-]. exists [], o, todo'.
              repeat split; [constructor | done |]. exists sr. split; [done | lia].
           ++ intros H. apply (Hcases _ H).
              ** intros -> _ <- <- _. done.
              ** intros Hp _. destruct (Hp Hown) as (sr' & Hsr' & Hle').
                 simplify_eq. lia.
      * split; [done |]. intros H. apply (Hcases _ H).
        -- intros _ _ <- _ (sr & Hsr' & _). simplify_eq.
        -- intros Hp _. destruct (Hp Hown) as (sr' & Hsr' & _). simplify_eq.
    + rewrite IH. split.
      * apply Hextend. intros ?. contradiction.
      * intros H. apply (Hcases _ H); [| done]. intros _ ?. contradiction.
Qed.

(** X2: [recv] waits exactly when the first entry of [O_M] that does not
    pass lists the receiver and has its origin in [SR_j] with a count
    below the entry's stamp; it then waits on that entry, and the entries
    still to be checked are that entry and the ones after it. *)
Theorem recv_blocks_iff (st : CausalOrderManager) (e : Envelope)
    (m : string) (t_m : Z) (todo : list CausalMessageEntry) :
  recv st e = Blocked m t_m todo <->
  exists pre o post,
    env_O_M e = (pre ++ o :: post)%list /\ todo = o :: post
    /\ Forall (passes (j st) (SR_j st)) pre
    /\ j st ∈ Dests o /\ i o = m /\ clock_i o = t_m
    /\ exists sr, SR_j st !! m = Some sr /\ sr < t_m.
Proof.
  rewrite <- delivery_condition_Wait. unfold recv.
  destruct (delivery_condition _ _ _); split; intros H; by simplify_eq.
Qed.

Lemma recv_blocks_iff_witness :
  recv (addPeer (init "c") "a")
       (Env "b" 1 "m2" {[ "c" ]} [CME "b" 0 ∅; CME "a" 1 {[ "b"; "c" ]}])
  = Blocked "a" 1 [CME "a" 1 {[ "b"; "c" ]}].
Proof.
  apply (proj2 (recv_blocks_iff (addPeer (init "c") "a")
           (Env "b" 1 "m2" {[ "c" ]} [CME "b" 0 ∅; CME "a" 1 {[ "b"; "c" ]}])
           "a" 1 [CME "a" 1 {[ "b"; "c" ]}])).
  exists [CME "b" 0 ∅], (CME "a" 1 {[ "b"; "c" ]}), [].
  split; [reflexivity |]. split; [reflexivity |]. split.
  { constructor; [| constructor]. intros Hown. by vm_compute in Hown. }
  split; [by vm_compute |]. split; [reflexivity |]. split; [reflexivity |].
  exists 0. split; [reflexivity | lia].
Defined.

(** ** purge-null: what it keeps *)

Lemma filter_all (P : CausalMessageEntry -> bool) (s : list CausalMessageEntry) :
  (forall x, x ∈ s -> P x = true) -> List.filter P s = s.
Proof.
  induction s as [| y s IH]; intros H; [done |]. cbn [List.filter].
  rewrite (H y) by apply list_elem_of_here.
  f_equal. apply IH. intros x Hx. apply H. by apply list_elem_of_further.
Qed.

Lemma purgeNullEntries_clean (LOG : list CausalMessageEntry) :
  no_stale LOG -> purgeNullEntries LOG = LOG.
Proof.
  intros Hns. rewrite purgeNullEntries_filter. apply filter_all.
  intros x Hx. apply negb_true_iff.
  destruct (stale_in LOG x) eqn:E; [| done].
  apply stale_in_true in E. by apply Hns in E.
Qed.

(** Among the entries of one origin in a set there is a newest one. *)
Lemma newest_of_origin (X : list CausalMessageEntry) (l : CausalMessageEntry) :
  l ∈ X ->
  exists n, n ∈ X /\ i n = i l /\ clock_i l <= clock_i n
            /\ forall x, x ∈ X -> i x = i l -> clock_i x <= clock_i n.
Proof.
  revert l. induction X as [| y X IH]; intros l Hl; [by apply elem_of_nil in Hl |].
  assert (forall n, n ∈ X -> i n = i l ->
            (forall x, x ∈ X -> i x = i l -> clock_i x <= clock_i n) ->
            exists n', n' ∈ y :: X /\ i n' = i l /\ clock_i n <= clock_i n'
              /\ forall x, x ∈ y :: X -> i x = i l -> clock_i x <= clock_i n')
    as Hstep.
  { intros n Hn Hi Hmax.
    destruct (decide (i y = i l /\ clock_i n < clock_i y)) as [[Hy Hlt] | Hno].
    - exists y. split; [apply list_elem_of_here |]. split; [done |].
      split; [lia |]. intros x Hx Hxi.
      apply elem_of_cons in Hx as [-> | Hx]; [lia |].
      specialize (Hmax x Hx Hxi). lia.
    - exists n. split; [by apply list_elem_of_further |]. split; [done |].
      split; [lia |]. intros x Hx Hxi.
      apply elem_of_cons in Hx as [-> | Hx]; [| by apply Hmax].
      destruct (decide (clock_i y <= clock_i n)); [done |].
      exfalso. apply Hno. split; [done | lia]. }
  apply elem_of_cons in Hl as [-> | Hl].
  - destruct (decide (Exists (fun x => i x = i y) X)) as [Hsome | Hnone].
    + apply Exists_exists in Hsome as (x & Hx & Hxi). destruct (IH x Hx) as (n & Hn & Hni & Hle & Hmax).
      rewrite Hxi in Hni.
      destruct (Hstep n Hn Hni) as (n' & Hn' & Hni' & Hle' & Hmax').
      { intros z Hz Hzi. apply Hmax; [done | congruence]. }
      exists n'. split; [done |]. split; [done |]. split; [| done].
      apply Hmax'; [apply list_elem_of_here | done].
    + exists y. split; [apply list_elem_of_here |]. split; [done |].
      split; [lia |]. intros x Hx Hxi.
      apply elem_of_cons in Hx as [-> | Hx]; [lia |].
      exfalso. apply Hnone, Exists_exists. by exists x.
  - destruct (IH l Hl) as (n & Hn & Hni & Hle & Hmax).
    destruct (Hstep n Hn Hni Hmax) as (n' & Hn' & Hni' & Hle' & Hmax').
    exists n'. split; [done |]. split; [done |]. split; [lia | done].
Qed.

Lemma newest_not_shadowed (X : list CausalMessageEntry) (n : CausalMessageEntry) :
  (forall x, x ∈ X -> i x = i n -> clock_i x <= clock_i n) -> ~ shadowed X n.
Proof.
  intros Hmax (_ & l' & Hl' & Hi & Hlt). specialize (Hmax l' Hl' Hi). lia.
Qed.

(** X3: purging twice is purging once: what [purgeNullEntries] returns is
    a log it leaves as it is. *)
Theorem purgeNullEntries_idempotent (LOG : list CausalMessageEntry) :
  purgeNullEntries (purgeNullEntries LOG) = purgeNullEntries LOG.
Proof. apply purgeNullEntries_clean, purgeNullEntries_no_stale. Qed.

(** X4: [purgeNullEntries] never loses an origin nor its newest stamp:
    for every entry of the log, the purged log still holds an entry of
    the same origin whose stamp is at least as large; and it adds
    nothing. *)
Theorem purgeNullEntries_keeps_newest (LOG : list CausalMessageEntry)
    (l : CausalMessageEntry) :
  l ∈ LOG ->
  (exists n, n ∈ purgeNullEntries LOG /\ i n = i l /\ clock_i l <= clock_i n)
  /\ (forall x, x ∈ purgeNullEntries LOG -> x ∈ LOG).
Proof.
  intros Hl. split.
  - destruct (newest_of_origin LOG l Hl) as (n & Hn & Hi & Hle & Hmax).
    exists n. split; [| done]. apply elem_of_purgeNullEntries. split; [done |].
    apply newest_not_shadowed. intros x Hx Hxi. apply Hmax; [done | congruence].
  - intros x Hx. by apply elem_of_purgeNullEntries in Hx as [? _].
Qed.

Lemma purgeNullEntries_keeps_newest_witness :
  exists n, n ∈ purgeNullEntries [CME "a" 0 ∅; CME "a" 2 ∅; CME "b" 0 ∅]
            /\ i n = "a" /\ 0 <= clock_i n.
Proof.
  apply (purgeNullEntries_keeps_newest
           [CME "a" 0 ∅; CME "a" 2 ∅; CME "b" 0 ∅] (CME "a" 0 ∅)).
  apply list_elem_of_here.
Defined.

(** ** send, step (1b): the loop of lines 97-102 *)

Lemma elem_of_discard_ne (x o : CausalMessageEntry) (s : list CausalMessageEntry) :
  x <> o -> x ∈ s -> x ∈ PySet.discard o s.
Proof.
  intros Hne. induction s as [| y s IH]; intros Hx; [done |]. simpl.
  destruct (CME_eq o y) eqn:E.
  - apply CME_eq_true in E. subst y.
    apply elem_of_cons in Hx as [-> | Hx]; [done | done].
  - apply elem_of_cons in Hx as [-> | Hx];
      [apply list_elem_of_here | apply list_elem_of_further; auto].
Qed.

Lemma shadowed_with_newest (X cur : list CausalMessageEntry) (o : CausalMessageEntry) :
  (forall x, x ∈ X -> ~ shadowed X x -> x ∈ cur) ->
  shadowed X o -> shadowed cur o.
Proof.
  intros Hkeep (HD & l' & Hl' & Hi & Hlt). split; [done |].
  destruct (newest_of_origin X l' Hl') as (n & Hn & Hni & Hle & Hmax).
  exists n. split; [| split; [congruence | lia]].
  apply Hkeep; [done |]. apply newest_not_shadowed.
  intros x Hx Hxi. apply Hmax; [done | congruence].
Qed.

Lemma drop_stale_loop (X todo cur : list CausalMessageEntry) :
  (forall x, x ∈ cur -> x ∈ X) ->
  (forall x, x ∈ X -> ~ shadowed X x -> x ∈ cur) ->
  foldl (fun cur o_st =>
           if stale_in cur o_st then PySet.difference cur [o_st] else cur)
        cur todo
  = foldl (fun acc marked => PySet.discard marked acc) cur
          (List.filter (stale_in X) todo).
Proof.
  revert cur. induction todo as [| o todo IH]; intros cur Hsub Hkeep; [done |].
  cbn [foldl List.filter].
  assert (stale_in cur o = stale_in X o) as ->.
  { destruct (stale_in X o) eqn:E.
    - apply stale_in_true. apply stale_in_true in E.
      by apply (shadowed_with_newest X).
    - destruct (stale_in cur o) eqn:E'; [| done].
      apply stale_in_true in E'. apply (shadowed_mono cur X) in E'; [| done].
      apply stale_in_true in E'. congruence. }
  destruct (stale_in X o) eqn:E; [| by apply IH].
  cbn [foldl]. unfold PySet.difference. cbn [foldl]. apply IH.
  - intros x Hx. apply Hsub. eapply elem_of_sublist; [exact Hx |].
    apply discard_sublist.
  - intros x Hx Hn. apply elem_of_discard_ne; [| by apply Hkeep].
    intros ->. apply Hn. by apply stale_in_true.
Qed.

(** X5: the loop of lines 97-102, which tests each entry against the set
    as already reduced and rebinds [O_M] while it runs over the first set,
    removes exactly what [purgeNullEntries] removes from that set. *)
Theorem drop_stale_is_purge (O_M : list CausalMessageEntry) :
  drop_stale O_M = purgeNullEntries O_M.
Proof. unfold drop_stale, purgeNullEntries. by apply drop_stale_loop. Qed.

(** ** send: the calls it schedules *)


Lemma elem_of_from_list (l : list CausalMessageEntry) (y : CausalMessageEntry) :
  y ∈ PySet.from_list l <-> y ∈ l.
Proof.
  unfold PySet.from_list. rewrite elem_of_fold_add, elem_of_nil. tauto.
Qed.

Lemma unpack_pack {T : JsonText} {L : JsonTextLaws T} (k : string) (t_k : Z)
    (M : string) (D : gset string) (O_M : list CausalMessageEntry) :
  unpackMessage (packMessage k t_k M D O_M)
  = Some (Env k t_k M D (PySet.from_list O_M)).
Proof.
  unfold unpackMessage, packMessage.
  rewrite loads_dumps. cbv beta iota.
  rewrite as_set_json_of_set.
  by rewrite (mapM_fmap_Some as_entry json_of_entry) by apply as_entry_json_of_entry.
Qed.





(** ** send: the log it leaves and the dependencies it sends *)

Lemma elem_of_send_log (LOG : list CausalMessageEntry) (own : string) (clock : Z)
    (DestsM : gset string) (l : CausalMessageEntry) :
  l ∈ send_log LOG own clock DestsM <->
  l = CME own clock DestsM
  \/ (l ∈ (fun l => with_Dests (Dests l ∖ DestsM) l) <$> LOG
      /\ ~ shadowed ((fun l => with_Dests (Dests l ∖ DestsM) l) <$> LOG) l).
Proof.
  unfold send_log. cbv zeta.
  rewrite elem_of_union, elem_of_purgeNullEntries, list_elem_of_singleton. tauto.
Qed.

(** X8: after a completed [send] the log holds the entry of the message
    just sent; every other entry is an entry of the old log with the
    destinations of the message removed, so it lists none of them; and
    every old entry that still has a destination left is kept. *)
Theorem send_log_entries {T : JsonText} (st st' : CausalOrderManager)
    (peers : gset string) (M : string) (DestsM : gset string) (delay : Z)
    (calls : list NetCall) :
  send st peers M DestsM delay = (st', calls, None) ->
  CME (j st) (clock_j st + 1) DestsM ∈ LOG_j st'
  /\ (forall l, l ∈ LOG_j st' ->
        l = CME (j st) (clock_j st + 1) DestsM
        \/ (Dests l ## DestsM
            /\ exists l0, l0 ∈ LOG_j st /\ l = with_Dests (Dests l0 ∖ DestsM) l0))
  /\ (forall l0, l0 ∈ LOG_j st -> Dests l0 ∖ DestsM <> ∅ ->
        with_Dests (Dests l0 ∖ DestsM) l0 ∈ LOG_j st').
Proof.
  unfold send. destruct (send_loop _ _ _ _ _ _) as [calls' [e |]]; [done |].
  intros [= <- <-]. cbn. split; [| split].
  - apply elem_of_send_log. by left.
  - intros l Hl. apply elem_of_send_log in Hl as [-> | [Hl _]]; [by left |].
    right. apply list_elem_of_fmap in Hl as (l0 & -> & Hl0).
    split; [cbn; set_solver | by exists l0].
  - intros l0 Hl0 Hne. apply elem_of_send_log. right. split.
    + apply list_elem_of_fmap. by exists l0.
    + intros [HD _]. by cbn in HD.
Qed.

Lemma send_log_entries_witness :
  CME "a" 1 {[ "b" ]}
  ∈ LOG_j (fst (fst (send (T := json_as_text) (addPeer (init "a") "b")
                       {[ "b" ]} "MSG hi" {[ "b" ]} 0))).
Proof.
  apply (send_log_entries (T := json_as_text) (addPeer (init "a") "b") _
           {[ "b" ]} "MSG hi" {[ "b" ]} 0
           (snd (fst (send (T := json_as_text) (addPeer (init "a") "b")
                        {[ "b" ]} "MSG hi" {[ "b" ]} 0)))).
  reflexivity.
Defined.

Lemma elem_of_drop_stale (X : list CausalMessageEntry) (o : CausalMessageEntry) :
  o ∈ drop_stale X <-> o ∈ X /\ ~ shadowed X o.
Proof.
  unfold drop_stale. rewrite (drop_stale_loop X X X) by done.
  apply elem_of_purgeNullEntries.
Qed.

Lemma prune_d_key (d : string) (DestsM : gset string) (o : CausalMessageEntry) :
  i (prune_d d DestsM o) = i o /\ clock_i (prune_d d DestsM o) = clock_i o.
Proof. unfold prune_d. by repeat case_bool_decide. Qed.

Lemma prune_d_keeps_d (d : string) (DestsM : gset string) (o : CausalMessageEntry) :
  d ∈ Dests o -> d ∈ Dests (prune_d d DestsM o).
Proof.
  intros Hd. unfold prune_d.
  rewrite (bool_decide_eq_false_2 (d ∉ Dests o)) by (intros Hn; by apply Hn).
  rewrite bool_decide_eq_true_2 by done. cbn. set_solver.
Qed.

(** The piggy-back set built for [d] has an entry for every log entry
    that lists [d], with the same origin and stamp, still listing [d]. *)
Lemma build_O_M_carries (LOG : list CausalMessageEntry) (d : string)
    (DestsM : gset string) (l : CausalMessageEntry) :
  l ∈ LOG -> d ∈ Dests l ->
  prune_d d DestsM l ∈ build_O_M LOG d DestsM.
Proof.
  intros Hl Hd. unfold build_O_M. apply elem_of_drop_stale. split.
  - unfold pruned_copy, PySet.deepcopy. apply list_elem_of_fmap.
    exists l. split; [done |]. by apply elem_of_from_list.
  - intros [HD _]. pose proof (prune_d_keeps_d d DestsM l Hd) as Hin.
    rewrite HD in Hin. set_solver.
Qed.

Lemma prune_d_adds_only (d : string) (DestsM : gset string) (o : CausalMessageEntry) :
  d ∈ Dests (prune_d d DestsM o) -> d ∈ Dests o.
Proof.
  unfold prune_d. repeat case_bool_decide; cbn in *; set_solver.
Qed.

(** X9: a message recorded in the sender's log as still owed to [d]
    holds back every later message to [d], and nothing else does: the
    receiver [d] delivers an envelope whose piggy-back set was built from
    that log exactly when, for every entry of the log that lists [d], its
    [SR_j] has the origin of the entry with a count at least its stamp. *)
Theorem dependency_holds_back (LOG : list CausalMessageEntry) (d : string)
    (DestsM : gset string) (st : CausalOrderManager)
    (k : string) (t_k : Z) (M : string) :
  j st = d ->
  (exists M' st',
     recv st (Env k t_k M DestsM (PySet.from_list (build_O_M LOG d DestsM)))
     = Delivered M' st')
  <-> (forall l, l ∈ LOG -> d ∈ Dests l ->
         exists sr, SR_j st !! i l = Some sr /\ clock_i l <= sr).
Proof.
  intros Hj. unfold recv. cbn [env_O_M]. split.
  - intros (M' & st' & Hrecv) l Hl Hd.
    destruct (delivery_condition _ _ _) eqn:Hdc; try done.
    apply delivery_condition_Ready in Hdc. rewrite Forall_forall in Hdc.
    specialize (Hdc (prune_d d DestsM l)).
    destruct (prune_d_key d DestsM l) as [Hi Hc]. rewrite <- Hi, <- Hc.
    apply Hdc.
    + apply elem_of_from_list. by apply build_O_M_carries.
    + rewrite Hj. by apply prune_d_keeps_d.
  - intros Hall.
    assert (delivery_condition (j st) (SR_j st)
              (PySet.from_list (build_O_M LOG d DestsM)) = DcReady) as ->;
      [| by eauto].
    apply delivery_condition_Ready, Forall_forall. intros o Ho Hown.
    rewrite elem_of_from_list in Ho. unfold build_O_M in Ho.
    apply elem_of_drop_stale in Ho as [Ho _].
    unfold pruned_copy, PySet.deepcopy in Ho.
    apply list_elem_of_fmap in Ho as (l & -> & Hl).
    rewrite elem_of_from_list in Hl. rewrite Hj in Hown.
    destruct (prune_d_key d DestsM l) as [-> ->].
    apply Hall; [done |]. by apply (prune_d_adds_only d DestsM).
Qed.

Lemma dependency_holds_back_witness :
  exists M' st',
    recv (COM "b" 0 {[ "a" := 1 ]} [CME "b" 0 ∅])
      (Env "a" 2 "m2" {[ "b" ]}
         (PySet.from_list (build_O_M [CME "a" 1 {[ "b" ]}] "b" {[ "b" ]})))
    = Delivered M' st'.
Proof.
  refine (proj2 (dependency_holds_back [CME "a" 1 {[ "b" ]}] "b" {[ "b" ]}
                   (COM "b" 0 {[ "a" := 1 ]} [CME "b" 0 ∅]) "a" 2 "m2" _) _).
  - reflexivity.
  - intros l Hl _. in_cases Hl. exists 1. split; [reflexivity | cbn; lia].
Defined.

(** ** recvHandler and the codec *)

(** X10: what [packMessage] writes, [recvHandler] hands to [recv] field
    by field, with the entries of [O_M] collected into a set again; so a
    repeated entry of [O_M] reaches [recv] once. *)
Theorem recvHandler_packMessage {T : JsonText} {L : JsonTextLaws T}
    (st : CausalOrderManager) (k : string) (t_k : Z) (M : string)
    (DestsM : gset string) (O_M : list CausalMessageEntry) :
  recvHandler st (packMessage k t_k M DestsM O_M)
  = Some (recv st (Env k t_k M DestsM (PySet.from_list O_M)))
  /\ NoDup (PySet.from_list O_M)
  /\ forall o, o ∈ PySet.from_list O_M <-> o ∈ O_M.
Proof.
  split; [| split].
  - unfold recvHandler. by rewrite unpack_pack.
  - unfold PySet.from_list.
    assert (forall l acc, NoDup acc ->
              NoDup (foldl (fun acc x => PySet.add x acc) acc l)) as H.
    { induction l as [| x l IH]; intros acc Hacc; [done |]. cbn [foldl].
      apply IH. destruct (decide (x ∈ acc)) as [Hin | Hin].
      - by rewrite add_present.
      - rewrite add_absent by done. apply NoDup_app. split; [done |].
        split; [| apply NoDup_singleton].
        intros y Hy Hy'. apply list_elem_of_singleton in Hy'. by subst. }
    apply H, NoDup_nil_2.
  - intros o. apply elem_of_from_list.
Qed.

Lemma recvHandler_packMessage_witness :
  recvHandler (T := json_as_text) (addPeer (init "b") "a")
    (packMessage (T := json_as_text) "a" 1 "MSG hi" {[ "b" ]}
       [CME "a" 0 ∅; CME "a" 0 ∅])
  = Some (recv (addPeer (init "b") "a")
            (Env "a" 1 "MSG hi" {[ "b" ]}
               (PySet.from_list [CME "a" 0 ∅; CME "a" 0 ∅]))).
Proof.
  exact (proj1 (recvHandler_packMessage (L := json_as_text_laws)
                  (addPeer (init "b") "a") "a" 1 "MSG hi" {[ "b" ]}
                  [CME "a" 0 ∅; CME "a" 0 ∅])).
Defined.

(** ** delPeer: what it removes and what it keeps *)

Lemma elem_of_delPeer_log (LOG : list CausalMessageEntry) (p : string)
    (l : CausalMessageEntry) :
  l ∈ PySet.difference LOG (List.filter (leaves p) LOG)
  <-> l ∈ LOG /\ i l <> p /\ p ∉ Dests l.
Proof.
  rewrite difference_marked, elem_of_filter_bool, negb_true_iff.
  unfold leaves. rewrite orb_false_iff, !bool_decide_eq_false.
  split; intros (? & ? & ?); repeat split; congruence.
Qed.

(** X11: [delPeer] for a peer other than the manager itself, present in
    [SR_j], raises nothing; it removes the peer's count and leaves the
    other counts and the clock alone; no entry left in the log has the
    peer as origin or lists it; every entry that neither comes from the
    peer nor lists it is kept; the entry [(j, 0, {})] is in the log; and
    nothing else is added. *)
Theorem delPeer_removes_peer (st : CausalOrderManager) (p : string) :
  is_Some (SR_j st !! p) -> p <> j st ->
  exists st',
    delPeer st p = inl st'
    /\ j st' = j st /\ clock_j st' = clock_j st
    /\ SR_j st' !! p = None
    /\ (forall q, q <> p -> SR_j st' !! q = SR_j st !! q)
    /\ (forall l, l ∈ LOG_j st' -> i l <> p /\ p ∉ Dests l)
    /\ (forall l, l ∈ LOG_j st -> i l <> p -> p ∉ Dests l -> l ∈ LOG_j st')
    /\ CME (j st) 0 ∅ ∈ LOG_j st'
    /\ (forall l, l ∈ LOG_j st' -> l ∈ LOG_j st \/ l = CME (j st) 0 ∅).
Proof.
  intros [v Hv] Hne. unfold delPeer. rewrite Hv. eexists. split; [reflexivity |].
  cbn. split; [done |]. split; [done |].
  split; [apply lookup_delete_eq |].
  split; [intros q Hq; by apply lookup_delete_ne |].
  split; [| split; [| split]].
  - intros l Hl. apply elem_of_add in Hl as [-> | Hl].
    + cbn. split; [done | set_solver].
    + by apply elem_of_delPeer_log in Hl as (_ & ? & ?).
  - intros l Hl Hi HD. apply elem_of_add. right. by apply elem_of_delPeer_log.
  - apply elem_of_add. by left.
  - intros l Hl. apply elem_of_add in Hl as [-> | Hl]; [by right |].
    left. by apply elem_of_delPeer_log in Hl as (? & _).
Qed.

Lemma delPeer_removes_peer_witness :
  exists st',
    delPeer (addPeer (init "a") "b") "b" = inl st'
    /\ j st' = "a" /\ clock_j st' = 0
    /\ SR_j st' !! "b" = None
    /\ (forall q, q <> "b" -> SR_j st' !! q = SR_j (addPeer (init "a") "b") !! q)
    /\ (forall l, l ∈ LOG_j st' -> i l <> "b" /\ "b" ∉ Dests l)
    /\ (forall l, l ∈ LOG_j (addPeer (init "a") "b") -> i l <> "b" ->
          "b" ∉ Dests l -> l ∈ LOG_j st')
    /\ CME "a" 0 ∅ ∈ LOG_j st'
    /\ (forall l, l ∈ LOG_j st' ->
          l ∈ LOG_j (addPeer (init "a") "b") \/ l = CME "a" 0 ∅).
Proof.
  apply (delPeer_removes_peer (addPeer (init "a") "b") "b").
  - exists 0. reflexivity.
  - discriminate.
Defined.

Lemma filter_none (P : CausalMessageEntry -> bool) (s : list CausalMessageEntry) :
  (forall x, x ∈ s -> P x = false) -> List.filter P s = [].
Proof.
  induction s as [| y s IH]; intros H; [done |]. cbn [List.filter].
  rewrite (H y) by apply list_elem_of_here.
  apply IH. intros x Hx. apply H. by apply list_elem_of_further.
Qed.

Lemma discard_last (x : CausalMessageEntry) (s : list CausalMessageEntry) :
  x ∉ s -> PySet.discard x (s ++ [x])%list = s.
Proof.
  induction s as [| y s IH]; intros Hx.
  - apply discard_head.
  - apply not_elem_of_cons in Hx as [Hne Hx].
    rewrite <- app_comm_cons, discard_skip by done. by rewrite IH.
Qed.

(** X12: a peer that is added and then removed leaves the manager as it
    was, provided the peer was unknown before (no count for it, no entry
    from it or listing it) and the log still holds [(j, 0, {})]. *)
Theorem addPeer_delPeer (st : CausalOrderManager) (p : string) :
  SR_j st !! p = None ->
  (forall l, l ∈ LOG_j st -> i l <> p /\ p ∉ Dests l) ->
  CME (j st) 0 ∅ ∈ LOG_j st ->
  delPeer (addPeer st p) p = inl st.
Proof.
  intros HSR Hlog Hseed.
  assert (CME p 0 ∅ ∉ LOG_j st) as Hfresh.
  { intros Hin. by destruct (Hlog _ Hin) as [Hi _]. }
  unfold delPeer, addPeer. cbn [SR_j LOG_j j clock_j].
  rewrite lookup_insert_eq. rewrite (add_absent _ _ Hfresh).
  rewrite List.filter_app.
  rewrite (filter_none (leaves p) (LOG_j st)).
  2:{ intros x Hx. destruct (Hlog x Hx) as [Hi HD]. unfold leaves.
      apply orb_false_iff. rewrite !bool_decide_eq_false. split; congruence. }
  cbn [List.filter app]. unfold leaves at 1. cbn.
  rewrite bool_decide_eq_true_2 by done. cbn.
  unfold PySet.difference. cbn [foldl]. rewrite discard_last by done.
  rewrite add_present by done.
  rewrite delete_insert_id by done. by destruct st.
Qed.

Lemma addPeer_delPeer_witness :
  delPeer (addPeer (init "a") "b") "b" = inl (init "a").
Proof.
  apply (addPeer_delPeer (init "a") "b").
  - reflexivity.
  - intros l Hl. cbn in Hl. in_cases Hl. cbn. split; [discriminate | set_solver].
  - cbn. apply list_elem_of_here.
Defined.

(** ** recv: the merge of steps (2c) and (2d) *)

Lemma shrink_entry_narrows (O_M : list CausalMessageEntry) (l : CausalMessageEntry) :
  i (shrink_entry O_M l) = i l
  /\ clock_i (shrink_entry O_M l) = clock_i l
  /\ Dests (shrink_entry O_M l) ⊆ Dests l.
Proof.
  unfold shrink_entry. revert l.
  induction O_M as [| o O_M IH]; intros l; cbn [foldl]; [done |].
  destruct (same_key l o).
  - destruct (IH (with_Dests (Dests l ∩ Dests o) l)) as (Hi & Hc & HD).
    cbn in Hi, Hc, HD. split; [done |]. split; [done |]. set_solver.
  - apply IH.
Qed.

Lemma elem_of_set_difference (s m : list CausalMessageEntry) (x : CausalMessageEntry) :
  x ∈ PySet.difference s m -> x ∈ s.
Proof. intros Hx. eapply elem_of_sublist; [exact Hx | apply difference_sublist]. Qed.

(** * The controller's histories and destinations *)

(** ** Strings *)

Lemma length_append (p s : string) :
  String.length (p ++ s) = (String.length p + String.length s)%nat.
Proof. induction p as [| a p IH]; simpl; [done | by rewrite IH]. Qed.

Lemma substring_prefix (p s : string) :
  substring 0 (String.length p) (p ++ s) = p.
Proof.
  induction p as [| a p IH]; simpl; [by destruct s | by rewrite IH].
Qed.

Lemma substring_skip (p s : string) (n m : nat) :
  substring (String.length p + n) m (p ++ s) = substring n m s.
Proof. induction p as [| a p IH]; simpl; [done | apply IH]. Qed.

Lemma substring_all (s : string) : substring 0 (String.length s) s = s.
Proof. induction s as [| a s IH]; simpl; [done | by rewrite IH]. Qed.

Lemma adjust_inside (len idx : Z) :
  0 <= idx <= len -> PyStr.adjust len idx = idx.
Proof.
  intros H. unfold PyStr.adjust. destruct (Z.ltb_spec idx 0); lia.
Qed.

(** [(p + t + s)[len(p) : len(p) + len(t)] = t] *)
Lemma slice_middle (p t s : string) :
  PyStr.slice (Z.of_nat (String.length p))
              (Z.of_nat (String.length p + String.length t)) (p ++ t ++ s) = t.
Proof.
  unfold PyStr.slice. rewrite !length_append.
  rewrite !adjust_inside by lia.
  destruct (Z.ltb_spec (Z.of_nat (String.length p))
              (Z.of_nat (String.length p + String.length t))) as [Hlt | Hge].
  - replace (Z.to_nat (Z.of_nat (String.length p)))
      with (String.length p + 0)%nat by lia.
    rewrite substring_skip.
    replace (Z.to_nat _) with (String.length t) by lia.
    apply substring_prefix.
  - destruct t; [done |]. simpl in Hge. lia.
Qed.

Lemma append_empty_r (s : string) : (s ++ EmptyString)%string = s.
Proof.
  induction s as [| a s IH]; [done |].
  change (String a (s ++ EmptyString)%string = String a s). by f_equal.
Qed.

(** [(p + s)[len(p):] = s] *)
Lemma slice_from_prefix (p s : string) :
  PyStr.slice_from (Z.of_nat (String.length p)) (p ++ s) = s.
Proof.
  unfold PyStr.slice_from. rewrite length_append.
  pose proof (slice_middle p s EmptyString) as H.
  by rewrite append_empty_r in H.
Qed.

Lemma find_nonneg (c : ascii) (s : string) : -1 <= PyStr.find c s.
Proof.
  induction s as [| a s IH]; simpl; [lia |].
  destruct (Ascii.eqb a c); [lia |]. case_match; lia.
Qed.

(** The first [c] of [p + c + s] is right after [p] when [c] is not in [p]. *)
Lemma find_first (c : ascii) (p s : string) :
  PyStr.contains c p = false ->
  PyStr.find c (p ++ String c s) = Z.of_nat (String.length p).
Proof.
  induction p as [| a p IH]; simpl.
  - intros _. by rewrite Ascii.eqb_refl.
  - intros H. apply orb_false_iff in H as [Ha Hp]. rewrite Ha, (IH Hp).
    case_match; lia.
Qed.

Lemma slice_header (s : string) : PyStr.slice 0 3 ("MSG " ++ s) = "MSG".
Proof. exact (slice_middle EmptyString "MSG" (" " ++ s)). Qed.

Lemma slice_from_header (s : string) : PyStr.slice_from 4 ("MSG " ++ s) = s.
Proof. exact (slice_from_prefix "MSG " s). Qed.

Lemma find_after_at (t rest : string) :
  PyStr.contains " " t = false ->
  PyStr.find " " ("@" ++ t ++ " " ++ rest) = Z.of_nat (S (String.length t)).
Proof.
  intros Ht.
  change (PyStr.find " " ("@" ++ t ++ " " ++ rest))
    with (let r := PyStr.find " " (t ++ String " " rest) in
          if r <? 0 then -1 else r + 1).
  rewrite find_first by done. cbv zeta.
  destruct (Z.ltb_spec (Z.of_nat (String.length t)) 0); lia.
Qed.

(** ** recordMessage *)

(** A chat line [MSG @target text] is filed under [target]. *)
Lemma recordMessage_parse (h : gmap string (list string)) (t rest : string) :
  PyStr.contains " " t = false ->
  recordMessage h ("MSG @" ++ t ++ " " ++ rest)
  = match h !! t with
    | Some q => <[ t := deque_append history_maxlen ("@" ++ t ++ " " ++ rest) q ]> h
    | None => h
    end.
Proof.
  intros Ht. unfold recordMessage.
  change ("MSG @" ++ t ++ " " ++ rest)%string
    with ("MSG " ++ ("@" ++ t ++ " " ++ rest))%string.
  rewrite slice_header, bool_decide_eq_true_2 by done.
  rewrite slice_from_header. cbv zeta. rewrite find_after_at by done.
  assert (PyStr.slice 1 (Z.of_nat (S (String.length t))) ("@" ++ t ++ " " ++ rest) = t)
    as -> by exact (slice_middle "@" t (" " ++ rest)).
  done.
Qed.

Lemma deque_append_length (n : nat) (x : string) (q : list string) :
  (List.length q <= n)%nat -> (List.length (deque_append n x q) <= n)%nat.
Proof.
  intros Hq. unfold deque_append. cbv zeta.
  destruct (Nat.ltb_spec n (List.length (q ++ [x]))) as [Hlt | Hge].
  - rewrite length_drop, length_app. simpl. lia.
  - done.
Qed.

(** X14: [recordMessage] opens no history and closes none, and it keeps
    every history within [history_maxlen] messages. *)
Theorem recordMessage_bounded (h : gmap string (list string)) (message : string) :
  (forall t q, h !! t = Some q -> (List.length q <= history_maxlen)%nat) ->
  dom (recordMessage h message) = dom h
  /\ forall t q, recordMessage h message !! t = Some q ->
       (List.length q <= history_maxlen)%nat.
Proof.
  intros Hb. unfold recordMessage. cbv zeta.
  case_bool_decide; [| done].
  destruct (h !! _) as [q0 |] eqn:Hq0; [| done]. split.
  - apply dom_insert_lookup_L. by rewrite Hq0.
  - intros t q Hq. apply lookup_insert_Some in Hq as [[_ <-] | [_ Hq]].
    + apply deque_append_length. by eapply Hb.
    + by eapply Hb.
Qed.

Lemma recordMessage_bounded_witness :
  dom (recordMessage {[ "all" := [] ]} "MSG @all bob@10.0.0.2> hi")
  = dom ({[ "all" := [] ]} : gmap string (list string))
  /\ forall t q,
       recordMessage {[ "all" := [] ]} "MSG @all bob@10.0.0.2> hi" !! t = Some q ->
       (List.length q <= history_maxlen)%nat.
Proof.
  apply (recordMessage_bounded {[ "all" := [] ]} "MSG @all bob@10.0.0.2> hi").
  intros t q Hq. apply lookup_singleton_Some in Hq as [_ <-]. simpl. lia.
Defined.

Lemma deque_append_full (n : nat) (xs q : list string) :
  (0 < n)%nat -> (List.length q <= n)%nat ->
  foldl (fun q x => deque_append n x q) q xs
  = drop (List.length (q ++ xs) - n) (q ++ xs)%list.
Proof.
  intros Hn. revert q. induction xs as [| x xs IH]; intros q Hq; cbn [foldl].
  - rewrite app_nil_r. replace (List.length q - n)%nat with 0%nat by lia. done.
  - rewrite IH by by apply deque_append_length.
    unfold deque_append. cbv zeta.
    destruct (Nat.ltb_spec n (List.length (q ++ [x]))) as [Hlt | Hge].
    + rewrite length_app in Hlt. simpl in Hlt.
      assert (List.length q = n) as Hlen by lia.
      rewrite <- (drop_app_le (q ++ [x]) xs 1) by (rewrite length_app; simpl; lia).
      rewrite drop_drop, length_drop, <- app_assoc. cbn [app].
      f_equal. rewrite !length_app. simpl. lia.
    + rewrite <- app_assoc. done.
Qed.

(** X15: after a run of chat lines [MSG @target text] for a target that
    has a history, that history holds, in order, the last
    [history_maxlen] of the texts it held before followed by the lines
    recorded (each without its header); the other histories are as they
    were. *)
Theorem history_keeps_last (h : gmap string (list string)) (t : string)
    (q rests : list string) :
  PyStr.contains " " t = false ->
  h !! t = Some q -> (List.length q <= history_maxlen)%nat ->
  let lines := (fun r => "MSG @" ++ t ++ " " ++ r)%string <$> rests in
  let texts := (q ++ ((fun r => "@" ++ t ++ " " ++ r)%string <$> rests))%list in
  foldl recordMessage h lines !! t
  = Some (drop (List.length texts - history_maxlen) texts)
  /\ forall t', t' <> t -> foldl recordMessage h lines !! t' = h !! t'.
Proof.
  intros Ht Hq Hlen lines texts.
  assert (forall rests h q, h !! t = Some q ->
            foldl recordMessage h
              ((fun r => "MSG @" ++ t ++ " " ++ r)%string <$> rests) !! t
            = Some (foldl (fun q x => deque_append history_maxlen x q) q
                      ((fun r => "@" ++ t ++ " " ++ r)%string <$> rests))
            /\ forall t', t' <> t ->
                 foldl recordMessage h
                   ((fun r => "MSG @" ++ t ++ " " ++ r)%string <$> rests) !! t'
                 = h !! t') as Hrun.
  { clear - Ht. induction rests as [| r rests IH]; intros h q Hq; [done |].
    cbn [fmap list_fmap foldl]. rewrite recordMessage_parse, Hq by done.
    destruct (IH (<[t := deque_append history_maxlen ("@" ++ t ++ " " ++ r) q]> h)
                (deque_append history_maxlen ("@" ++ t ++ " " ++ r) q))
      as [Heq Hother]; [apply lookup_insert_eq |].
    split; [exact Heq |]. intros t' Hne.
    rewrite Hother by done. by apply lookup_insert_ne. }
  destruct (Hrun rests h q Hq) as [Heq Hother]. split; [| exact Hother].
  unfold lines. rewrite Heq. f_equal.
  apply deque_append_full; [unfold history_maxlen; lia | done].
Qed.

Lemma history_keeps_last_witness :
  foldl recordMessage {[ "all" := [] ]}
    ((fun r => "MSG @" ++ "all" ++ " " ++ r)%string <$> ["bob> hi"]) !! "all"
  = Some (drop (List.length
                  ([] ++ ((fun r => "@" ++ "all" ++ " " ++ r)%string <$> ["bob> hi"]))
                - history_maxlen)
            ([] ++ ((fun r => "@" ++ "all" ++ " " ++ r)%string <$> ["bob> hi"]))%list).
Proof.
  refine (proj1 (history_keeps_last {[ "all" := [] ]} "all" [] ["bob> hi"] _ _ _)).
  - reflexivity.
  - reflexivity.
  - simpl. lia.
Defined.

(** ** The destinations of an outgoing message *)

Lemma split_no_sep (c : ascii) (s : string) :
  PyStr.contains c s = false -> PyStr.split c s = [s].
Proof.
  induction s as [| a s IH]; simpl; [done |].
  intros H. apply orb_false_iff in H as [Ha Hs]. by rewrite Ha, (IH Hs).
Qed.

Lemma split_first (c : ascii) (p s : string) :
  PyStr.contains c p = false ->
  PyStr.split c (p ++ String c s) = p :: PyStr.split c s.
Proof.
  induction p as [| a p IH]; intros H.
  - change (PyStr.split c (String c s) = EmptyString :: PyStr.split c s).
    simpl. by rewrite Ascii.eqb_refl.
  - simpl in H. apply orb_false_iff in H as [Ha Hp].
    change (PyStr.split c (String a (p ++ String c s))
            = String a p :: PyStr.split c s).
    simpl. by rewrite Ha, (IH Hp).
Qed.

Lemma contains_sep (c : ascii) (p s : string) :
  PyStr.contains c (p ++ String c s) = true.
Proof.
  induction p as [| a p IH].
  - change (PyStr.contains c (String c s) = true). simpl.
    by rewrite Ascii.eqb_refl.
  - change (PyStr.contains c (String a (p ++ String c s)) = true). simpl.
    rewrite IH. apply orb_true_r.
Qed.

(** The host of a user name [user@host]. *)
Lemma host_of_user (u ip : string) :
  PyStr.contains "@" u = false -> PyStr.contains "@" ip = false ->
  host_of (u ++ "@" ++ ip) = Some ip.
Proof.
  intros Hu Hip. unfold host_of.
  change (u ++ "@" ++ ip)%string with (u ++ String "@" ip)%string.
  by rewrite split_first, split_no_sep.
Qed.

Lemma host_of_no_at (x : string) :
  PyStr.contains "@" x = false -> host_of x = None.
Proof. intros Hx. unfold host_of. by rewrite split_no_sep. Qed.

Lemma mapM_host_of (ms : list (string * string)) :
  Forall well_named ms -> mapM host_of (full_name <$> ms) = Some (snd <$> ms).
Proof.
  intros H. apply mapM_Some. induction H as [| m ms [Hu Hip] _ IH]; constructor.
  - by apply host_of_user.
  - exact IH.
Qed.

(** X16: a target with an [@] names one user, [user@host], and the
    message goes to [host] alone, whatever the groups are; the first
    character of the target is not looked at, so a target whose only [@]
    is its first character raises [IndexError]. *)
Theorem resolve_target_user (groups : gmap string (list string)) (c : ascii)
    (u ip : string) :
  PyStr.contains "@" u = false -> PyStr.contains "@" ip = false ->
  resolve_target groups (String c (u ++ "@" ++ ip)) = inl {[ ip ]}
  /\ resolve_target groups (String "@" u) = inr IndexError.
Proof.
  intros Hu Hip. unfold resolve_target. split.
  - assert (PyStr.contains "@" (String c (u ++ "@" ++ ip)) = true) as ->.
    { simpl. change (u ++ "@" ++ ip)%string with (u ++ String "@" ip)%string.
      rewrite contains_sep. apply orb_true_r. }
    assert (PyStr.slice_from 1 (String c (u ++ "@" ++ ip)) = (u ++ "@" ++ ip)%string)
      as -> by exact (slice_from_prefix (String c EmptyString) (u ++ "@" ++ ip)).
    by rewrite host_of_user.
  - assert (PyStr.contains "@" (String "@" u) = true) as -> by done.
    assert (PyStr.slice_from 1 (String "@" u) = u)
      as -> by exact (slice_from_prefix "@" u).
    by rewrite host_of_no_at.
Qed.

Lemma resolve_target_user_witness :
  resolve_target ∅ "bob@10.0.0.2" = inl {[ "10.0.0.2" ]}
  /\ resolve_target ∅ "@ob" = inr IndexError.
Proof.
  exact (resolve_target_user ∅ "b" "ob" "10.0.0.2" eq_refl eq_refl).
Defined.

(** X17: a target without [@] names a group: an unknown group raises
    [KeyError]; a group whose members are all named [user@host] gives the
    hosts of its members; a member without [@] raises [IndexError]. *)
Theorem resolve_target_group (groups : gmap string (list string)) (target : string) :
  PyStr.contains "@" target = false ->
  (groups !! target = None ->
   resolve_target groups target = inr (GroupKeyError target))
  /\ (forall ms, groups !! target = Some (full_name <$> ms) -> Forall well_named ms ->
        resolve_target groups target = inl (list_to_set (snd <$> ms)))
  /\ (forall members x, groups !! target = Some members -> x ∈ members ->
        PyStr.contains "@" x = false ->
        resolve_target groups target = inr IndexError).
Proof.
  intros Ht. unfold resolve_target. rewrite Ht. split; [| split].
  - by intros ->.
  - intros ms -> Hms. by rewrite mapM_host_of.
  - intros members x -> Hx Hno.
    destruct (mapM host_of members) as [hs |] eqn:E; [| done].
    apply mapM_Some in E.
    apply list_elem_of_lookup in Hx as [n Hn].
    destruct (Forall2_lookup_l _ _ _ _ _ E Hn) as (y & _ & Hy).
    by rewrite host_of_no_at in Hy.
Qed.

Lemma resolve_target_group_witness :
  resolve_target ∅ "all" = inr (GroupKeyError "all").
Proof.
  exact (proj1 (resolve_target_group ∅ "all" eq_refl) eq_refl).
Defined.

(** X18: a message for a group whose members all sit on this host (the
    user alone in the group, for one) is neither recorded nor sent and
    nothing changes; as soon as one member sits elsewhere, the message is
    recorded and the manager sends it to the hosts of the members other
    than this one. *)
Theorem group_message {T : JsonText} (groups h : gmap string (list string))
    (st : CausalOrderManager) (peers : gset string) (target message : string)
    (delay : Z) (ms : list (string * string)) :
  PyStr.contains "@" target = false ->
  groups !! target = Some (full_name <$> ms) -> Forall well_named ms ->
  (Forall (fun m => m.2 = j st) ms ->
   Controller_handleOutgoingMessage groups h st peers target message delay
   = inl (h, (st, [], None)))
  /\ (forall m, m ∈ ms -> m.2 <> j st ->
        Controller_handleOutgoingMessage groups h st peers target message delay
        = inl (recordMessage h message,
               send st peers message (list_to_set (snd <$> ms) ∖ {[ j st ]}) delay)).
Proof.
  intros Ht Hg Hms. unfold Controller_handleOutgoingMessage, resolve_target.
  rewrite Ht, Hg, mapM_host_of by done. unfold handleOutgoingMessage. cbv zeta.
  split.
  - intros Hall. rewrite bool_decide_eq_true_2; [done |].
    apply set_eq. intros x. rewrite elem_of_difference, elem_of_list_to_set.
    rewrite list_elem_of_fmap, elem_of_singleton, elem_of_empty.
    split; [| done]. intros [(m & -> & Hm) Hne].
    rewrite Forall_forall in Hall. by apply Hne, Hall.
  - intros m Hm Hne. rewrite bool_decide_eq_false_2; [done |].
    intros Hempty. assert (m.2 ∈ (∅ : gset string)) as Hin; [| set_solver].
    rewrite <- Hempty. apply elem_of_difference. split.
    + apply elem_of_list_to_set, list_elem_of_fmap. by exists m.
    + by rewrite elem_of_singleton.
Qed.

Lemma group_message_witness :
  Controller_handleOutgoingMessage (T := json_as_text)
    {[ "all" := full_name <$> [("bob", "10.0.0.1")] ]} {[ "all" := [] ]}
    (init "10.0.0.1") ∅ "all" "MSG @all bob@10.0.0.1> hi" 0
  = inl ({[ "all" := [] ]}, (init "10.0.0.1", [], None)).
Proof.
  refine (proj1 (group_message (T := json_as_text)
                   {[ "all" := full_name <$> [("bob", "10.0.0.1")] ]} {[ "all" := [] ]}
                   (init "10.0.0.1") ∅ "all" "MSG @all bob@10.0.0.1> hi" 0
                   [("bob", "10.0.0.1")] _ _ _) _).
  - reflexivity.
  - reflexivity.
  - constructor; [| constructor]. split; reflexivity.
  - constructor; [| constructor]. reflexivity.
Defined.

(** ** Chat.handleDelay *)

Lemma split_nonempty (c : ascii) (s : string) : PyStr.split c s <> [].
Proof.
  induction s as [| a s IH]; simpl; [done |].
  destruct (Ascii.eqb a c); [done |]. by destruct (PyStr.split c s).
Qed.

(** X19: of the text given to [-delay], the first word is the delay and
    the second word alone is the message: whatever follows the second
    word is not sent.  With no second word, [line[1]] raises
    [IndexError]. *)
Theorem handleDelay_sends_one_word (py_int : string -> option Z)
    (user_name d w rest : string) (n : Z) :
  PyStr.contains " " d = false -> PyStr.contains " " w = false ->
  w <> EmptyString -> py_int d = Some n ->
  handleDelay py_int user_name (d ++ " " ++ w ++ " " ++ rest)
  = DelaySend "all" ("MSG @all " ++ user_name ++ "> " ++ w) n
  /\ handleDelay py_int user_name (d ++ " " ++ w)
     = DelaySend "all" ("MSG @all " ++ user_name ++ "> " ++ w) n
  /\ handleDelay py_int user_name d = DelayIndexError.
Proof.
  intros Hd Hw Hne Hint. unfold handleDelay. cbv zeta. split; [| split].
  - change (d ++ " " ++ w ++ " " ++ rest)%string
      with (d ++ String " " (w ++ String " " rest))%string.
    rewrite !split_first by done. cbn. rewrite Hint.
    by rewrite bool_decide_eq_false_2.
  - change (d ++ " " ++ w)%string with (d ++ String " " w)%string.
    rewrite split_first, split_no_sep by done. cbn. rewrite Hint.
    by rewrite bool_decide_eq_false_2.
  - rewrite split_no_sep by done. cbn. by rewrite Hint.
Qed.

Lemma handleDelay_sends_one_word_witness :
  handleDelay (fun s => if bool_decide (s = "10") then Some 10 else None)
    "bob@10.0.0.1" ("10" ++ " " ++ "This" ++ " " ++ "message is delayed")
  = DelaySend "all" ("MSG @all " ++ "bob@10.0.0.1" ++ "> " ++ "This") 10.
Proof.
  refine (proj1 (handleDelay_sends_one_word
                   (fun s => if bool_decide (s = "10") then Some 10 else None)
                   "bob@10.0.0.1" "10" "This" "message is delayed" 10 _ _ _ _)).
  - reflexivity.
  - reflexivity.
  - discriminate.
  - reflexivity.
Defined.

(** ** recv: what a delivery releases *)

(** X20: a delivery releases what waited for it.  After [recv] has
    delivered the message [(k, t_k)], every entry of origin [k] with a
    stamp up to [t_k] passes the delivery test, and an entry of another
    origin passes exactly when it did before. *)
Theorem delivery_releases (st st' : CausalOrderManager) (e : Envelope)
    (M : string) (o : CausalMessageEntry) :
  recv st e = Delivered M st' ->
  (i o = env_k e -> clock_i o <= env_t_k e -> passes (j st') (SR_j st') o)
  /\ (i o <> env_k e ->
      (passes (j st') (SR_j st') o <-> passes (j st) (SR_j st) o)).
Proof.
  unfold recv. destruct (delivery_condition _ _ _); try done.
  intros [= <- <-]. cbn. unfold passes. split.
  - intros -> Hle _. exists (env_t_k e). by rewrite lookup_insert_eq.
  - intros Hne. by rewrite lookup_insert_ne.
Qed.

Lemma delivery_releases_witness :
  passes "b" (SR_j (recv_complete (addPeer (init "b") "a") "a" 1 {[ "b" ]} []))
    (CME "a" 1 {[ "b" ]}).
Proof.
  refine (proj1 (delivery_releases (addPeer (init "b") "a")
                   (recv_complete (addPeer (init "b") "a") "a" 1 {[ "b" ]} [])
                   (Env "a" 1 "m1" {[ "b" ]} []) "m1" (CME "a" 1 {[ "b" ]}) _) _ _).
  - reflexivity.
  - reflexivity.
  - cbn. lia.
Defined.

(** * recv and the controller's callback *)

(** For a chat line the callback returns and leaves the manager alone. *)
Lemma deliverMessage_chat_line (updateState : string -> callback)
    (updateGroup : string -> string -> callback) (text : string)
    (st : CausalOrderManager) :
  deliverMessage updateState updateGroup ("MSG " ++ text) st = CbReturned st.
Proof.
  unfold deliverMessage. cbv zeta.
  by rewrite slice_header, bool_decide_eq_true_2.
Qed.

(** [recv] is [recv_cb] for a callback that returns and leaves the manager
    alone. *)
Lemma recv_cb_quiet (deliver : string -> callback) (st : CausalOrderManager)
    (e : Envelope) :
  deliver (env_M e) st = CbReturned st ->
  recv_cb deliver st e
  = match recv st e with
    | Delivered M st' => CbDelivered M st'
    | Blocked m t_m todo => CbBlocked m t_m todo
    | RecvRaised x => CbScanRaised x
    end.
Proof.
  intros Hq. unfold recv_cb, recv. rewrite Hq.
  by destruct (delivery_condition _ _ _).
Qed.

(** ** C3: an origin without an entry in SR_j *)

(** C3, as stated, fails: peer [a] knows [a] and [b] only and receives an
    envelope whose [O_M] names origin [c] with [a] among the dests.  The
    lookup [SR_j["c"]] raises before the controller is called, whether the
    entry is stamped 1 (where a default of 0 would make [recv] wait) or 0
    (where it would deliver). *)
Lemma recv_unknown_origin_raises :
  let st := addPeer (init "a") "b" in
  let O1 := [CME "c" 1 {[ "a" ]}] in
  let O0 := [CME "c" 0 {[ "a" ]}] in
  (forall deliver,
      recv_cb deliver st (Env "b" 2 "m2" {[ "a" ]} O1) = CbScanRaised (KeyError "c"))
  /\ delivery_condition_default0 (j st) (SR_j st) O1 = DcWait "c" 1 O1
  /\ (forall deliver,
        recv_cb deliver st (Env "b" 2 "m2" {[ "a" ]} O0) = CbScanRaised (KeyError "c"))
  /\ delivery_condition_default0 (j st) (SR_j st) O0 = DcReady.
Proof. repeat split; reflexivity. Qed.

(** C3, amended: [receive] looks [SR_j[m]] up only for entries that list [j]
    among their dests.  When every such entry has its origin in [SR_j], the
    delivery condition raises nothing and decides, to deliver or to wait,
    as the default of 0 would; [receive] then fails only if the
    controller's [deliverMessage] raises, with that exception.  When the
    scan reaches an entry that lists [j] and whose origin has no entry in
    [SR_j], the lookup raises [KeyError] and [receive] ends without calling
    the controller; this is the only way the delivery condition raises,
    whatever the controller does. *)
Theorem recv_missing_origin (deliver : string -> callback)
    (st : CausalOrderManager) (e : Envelope) :
  ((forall o, o ∈ env_O_M e -> j st ∈ Dests o -> is_Some (SR_j st !! i o)) ->
     (forall x, recv_cb deliver st e <> CbScanRaised x)
     /\ delivery_condition (j st) (SR_j st) (env_O_M e)
        = delivery_condition_default0 (j st) (SR_j st) (env_O_M e)
     /\ (forall err st1,
           recv_cb deliver st e = CbDeliverRaised err st1 <->
           delivery_condition_default0 (j st) (SR_j st) (env_O_M e) = DcReady
           /\ deliver (env_M e) st = CbRaised err st1))
  /\ (forall m,
        recv_cb deliver st e = CbScanRaised (KeyError m) <->
        exists pre o post,
          env_O_M e = (pre ++ o :: post)%list
          /\ Forall (passes (j st) (SR_j st)) pre
          /\ j st ∈ Dests o /\ i o = m /\ SR_j st !! m = None).
Proof.
  split.
  - intros Hknown. pose proof (delivery_condition_known _ _ _ Hknown) as Heq.
    split; [| split; [done |]].
    + intros x. unfold recv_cb. rewrite Heq.
      destruct (delivery_condition_default0 _ _ _) eqn:E; try done.
      * by destruct (deliver _ _).
      * by apply delivery_condition_default0_total in E.
    + intros err st1. unfold recv_cb. rewrite Heq.
      destruct (delivery_condition_default0 _ _ _) eqn:E.
      * destruct (deliver _ _); split; try done.
        -- by intros [_ [=]].
        -- by intros [= <- <-].
        -- by intros [_ [= <- <-]].
      * split; [done | by intros [[=] _]].
      * split; [done | by intros [[=] _]].
  - intros m. rewrite <- delivery_condition_KeyError. unfold recv_cb.
    destruct (delivery_condition _ _ _); [destruct (deliver _ _) | |];
      split; intros H; by simplify_eq.
Qed.

Lemma recv_missing_origin_witness :
  let st := addPeer (init "a") "b" in
  let deliver := deliverMessage (fun _ st => CbRaised (Raised "JSONDecodeError") st)
                   (fun _ _ st => CbRaised (Raised "KeyError") st) in
  (forall x, recv_cb deliver st
               (Env "b" 1 "MSG m" {[ "a" ]} [CME "b" 0 ∅; CME "c" 1 {[ "b" ]}])
             <> CbScanRaised x)
  /\ recv_cb deliver st
       (Env "b" 2 "MSG m2" {[ "a" ]} [CME "b" 0 ∅; CME "c" 1 {[ "a" ]}])
     = CbScanRaised (KeyError "c").
Proof.
  split.
  - apply (recv_missing_origin
             (deliverMessage (fun _ st => CbRaised (Raised "JSONDecodeError") st)
                (fun _ _ st => CbRaised (Raised "KeyError") st))
             (addPeer (init "a") "b")
             (Env "b" 1 "MSG m" {[ "a" ]} [CME "b" 0 ∅; CME "c" 1 {[ "b" ]}])).
    intros o Ho Hown. simpl in Ho, Hown.
    apply elem_of_cons in Ho as [-> | Ho]; [by vm_compute in Hown |].
    apply list_elem_of_singleton in Ho as ->. by vm_compute in Hown.
  - apply (recv_missing_origin
             (deliverMessage (fun _ st => CbRaised (Raised "JSONDecodeError") st)
                (fun _ _ st => CbRaised (Raised "KeyError") st))
             (addPeer (init "a") "b")
             (Env "b" 2 "MSG m2" {[ "a" ]} [CME "b" 0 ∅; CME "c" 1 {[ "a" ]}])).
    exists [CME "b" 0 ∅], (CME "c" 1 {[ "a" ]}), [].
    split; [reflexivity |]. split; [| by vm_compute].
    constructor; [| constructor]. intros Hown. by vm_compute in Hown.
Defined.

(** ** recv: when it delivers, and the state it leaves *)

(** X1: [recv] calls the controller exactly when every entry of [O_M] that
    lists the receiver has its origin in [SR_j] with a count at least the
    entry's stamp.  When the call returns, the payload handed over was the
    envelope's and the state left is the one of steps (2b)-(2e) applied to
    the manager as the call left it; when the call raises, [recv] ends
    there, with the manager as the call left it: [SR_j[k]] is not assigned
    and nothing is merged.  For a chat line (header [MSG]) the call
    returns and leaves the manager as it was. *)
Theorem recv_delivers_iff (deliver : string -> callback)
    (st st' : CausalOrderManager) (e : Envelope) (M : string) :
  (recv_cb deliver st e = CbDelivered M st' <->
   Forall (passes (j st) (SR_j st)) (env_O_M e)
   /\ M = env_M e
   /\ exists st1,
        deliver (env_M e) st = CbReturned st1
        /\ st' = recv_complete st1 (env_k e) (env_t_k e) (env_Dests e) (env_O_M e))
  /\ (forall err,
        recv_cb deliver st e = CbDeliverRaised err st' <->
        Forall (passes (j st) (SR_j st)) (env_O_M e)
        /\ deliver (env_M e) st = CbRaised err st')
  /\ (forall updateState updateGroup text,
        deliver = deliverMessage updateState updateGroup ->
        env_M e = ("MSG " ++ text)%string ->
        Forall (passes (j st) (SR_j st)) (env_O_M e) ->
        recv_cb deliver st e
        = CbDelivered (env_M e)
            (recv_complete st (env_k e) (env_t_k e) (env_Dests e) (env_O_M e))).
Proof.
  setoid_rewrite <- delivery_condition_Ready. unfold recv_cb. split; [| split].
  - destruct (delivery_condition _ _ _); [destruct (deliver _ _) eqn:Hd | |];
      split; try done.
    + intros [= <- <-]. eauto.
    + intros (_ & -> & st1 & [= <-] & ->). done.
    + by intros (_ & _ & st1 & [=] & _).
    + by intros ([=] & _).
    + by intros ([=] & _).
  - intros err.
    destruct (delivery_condition _ _ _); [destruct (deliver _ _) eqn:Hd | |];
      split; try done.
    + by intros (_ & [=]).
    + intros [= <- <-]. by split.
    + by intros (_ & [= <- <-]).
    + by intros ([=] & _).
    + by intros ([=] & _).
  - intros updateState updateGroup text -> HM Hdc.
    by rewrite Hdc, HM, deliverMessage_chat_line.
Qed.

Lemma recv_delivers_iff_witness :
  recv_cb (deliverMessage (fun _ st => CbRaised (Raised "JSONDecodeError") st)
             (fun _ _ st => CbRaised (Raised "JSONDecodeError") st))
    (addPeer (init "a") "b") (Env "b" 1 "CRG x" {[ "a" ]} [CME "b" 0 ∅])
  = CbDeliverRaised (Raised "JSONDecodeError") (addPeer (init "a") "b").
Proof.
  apply (recv_delivers_iff
           (deliverMessage (fun _ st => CbRaised (Raised "JSONDecodeError") st)
              (fun _ _ st => CbRaised (Raised "JSONDecodeError") st))
           (addPeer (init "a") "b") (addPeer (init "a") "b")
           (Env "b" 1 "CRG x" {[ "a" ]} [CME "b" 0 ∅]) "CRG x").
  split; [| reflexivity].
  simpl. constructor; [| constructor]. intros Hown. by vm_compute in Hown.
Defined.

(** ** recv: where the entries of the new log come from *)

(** X13: [recv] itself invents no dependency.  Every entry of the log
    after a delivery has the origin and stamp of an entry of the log as
    the controller's call left it, of an entry of [O_M], or of the
    delivered message, and lists no destination that this entry did not
    list.  The log the call left is the old log for a chat line; a call
    that sends (the answer to a [JNG]) has put its own entry there. *)
Theorem recv_invents_nothing (deliver : string -> callback)
    (st st' : CausalOrderManager) (e : Envelope) (M : string)
    (l : CausalMessageEntry) :
  recv_cb deliver st e = CbDelivered M st' -> l ∈ LOG_j st' ->
  exists st1 l0,
    deliver (env_M e) st = CbReturned st1
    /\ (l0 ∈ LOG_j st1 \/ l0 ∈ env_O_M e
        \/ l0 = CME (env_k e) (env_t_k e) (env_Dests e))
    /\ i l = i l0 /\ clock_i l = clock_i l0 /\ Dests l ⊆ Dests l0
    /\ (forall updateState updateGroup text,
          deliver = deliverMessage updateState updateGroup ->
          env_M e = ("MSG " ++ text)%string -> st1 = st).
Proof.
  unfold recv_cb. destruct (delivery_condition _ _ _); try done.
  destruct (deliver (env_M e) st) as [st1 | err st1] eqn:Hd; [| done].
  intros [= <- <-]. cbn. unfold recv_log. cbv zeta. intros Hl.
  assert (forall updateState updateGroup text,
            deliver = deliverMessage updateState updateGroup ->
            env_M e = ("MSG " ++ text)%string -> st1 = st) as Hquiet.
  { intros updateState updateGroup text -> HM.
    rewrite HM, deliverMessage_chat_line in Hd. by injection Hd. }
  apply elem_of_purgeNullEntries in Hl as [Hl _].
  apply elem_of_union in Hl as [Hl | Hl].
  - apply list_elem_of_fmap in Hl as (l1 & -> & Hl1).
    apply elem_of_set_difference in Hl1.
    exists st1, l1. split; [done |]. split; [by left |].
    destruct (shrink_entry_narrows
                (PySet.difference
                   (incorporate (j st1) (env_k e) (env_t_k e) (env_Dests e) (env_O_M e))
                   (marks_o
                      (incorporate (j st1) (env_k e) (env_t_k e) (env_Dests e)
                         (env_O_M e)) (LOG_j st1))) l1) as (Hi & Hc & HD).
    done.
  - do 2 apply elem_of_set_difference in Hl. unfold incorporate in Hl.
    apply list_elem_of_fmap in Hl as (o & -> & Ho).
    exists st1, o. split; [done |]. split.
    + apply elem_of_add in Ho as [-> | Ho]; [by right; right | by right; left].
    + cbn. split; [done |]. split; [done |]. split; [set_solver | done].
Qed.

(** A member [b] of a group receives a [JNG] of [c] sent by [a]: the
    controller answers [c] with an [AJG], that is, runs [send] on the
    manager inside [recv]; the entry of that answer is in the log that
    [recv] then merges into. *)
Lemma recv_invents_nothing_witness :
  let st := addPeer (addPeer (init "b") "a") "c" in
  let answer : string -> string -> callback :=
    fun _ _ st =>
      CbReturned (send (T := json_as_text) st {[ "a"; "c" ]} "AJG g" {[ "c" ]} 0).1.1 in
  let deliver := deliverMessage (fun _ st => CbReturned st) answer in
  exists st1 l0,
    deliver "JNG g" st = CbReturned st1
    /\ (l0 ∈ LOG_j st1 \/ l0 ∈ [CME "a" 0 ∅]
        \/ l0 = CME "a" 1 {[ "b"; "c" ]})
    /\ i (CME "b" 1 {[ "c" ]}) = i l0 /\ clock_i (CME "b" 1 {[ "c" ]}) = clock_i l0
    /\ Dests (CME "b" 1 {[ "c" ]}) ⊆ Dests l0
    /\ (forall updateState updateGroup text,
          deliver = deliverMessage updateState updateGroup ->
          "JNG g" = ("MSG " ++ text)%string -> st1 = st).
Proof.
  cbv zeta.
  assert (CME "b" 1 {[ "c" ]}
          ∈ LOG_j (recv_complete
                     (send (T := json_as_text) (addPeer (addPeer (init "b") "a") "c")
                        {[ "a"; "c" ]} "AJG g" {[ "c" ]} 0).1.1
                     "a" 1 {[ "b"; "c" ]} [CME "a" 0 ∅])) as Hin.
  { vm_compute. repeat first [apply list_elem_of_here | apply list_elem_of_further]. }
  exact (recv_invents_nothing
           (deliverMessage (fun _ st => CbReturned st)
              (fun _ _ st =>
                 CbReturned
                   (send (T := json_as_text) st {[ "a"; "c" ]} "AJG g" {[ "c" ]} 0).1.1))
           (addPeer (addPeer (init "b") "a") "c") _
           (Env "a" 1 "JNG g" {[ "b"; "c" ]} [CME "a" 0 ∅]) "JNG g"
           (CME "b" 1 {[ "c" ]}) eq_refl Hin).
Defined.

(** ** C1: causal delivery *)

(** C1 fails on the code.  Peer [a] sends [one] to [b] and [c] (typed with
    [-delay 10], so the calls are scheduled 10 seconds later), loses the
    connection to [b] ([delPeer(b)]), then sends [two] to [c].  [delPeer]
    has discarded the entry of [one] from the log of [a], because it lists
    [b]: the envelope of [two] carries nothing that holds it back at [c].
    Peer [c] receives [two] first and delivers it, then receives [one] and
    delivers it: [c] is a destination of both, [one] was sent before [two]
    by the same peer, and [c] delivers [two] before [one].  The count [SR_c[a]] goes from 0 to 2
    and then back to 1. *)
Theorem delPeer_breaks_causal_delivery :
  let a := "10.0.0.1" in
  let b := "10.0.0.2" in
  let c := "10.0.0.3" in
  let one := "MSG @all ann@10.0.0.1> one" in
  let two := "MSG @all ann@10.0.0.1> two" in
  let a0 := addPeer (addPeer (init a) b) c in
  let c0 := addPeer (addPeer (init c) a) b in
  exists (a1 : CausalOrderManager) (calls1 : list (NetCall (T := json_as_text)))
         (w1 : wire (JsonText := json_as_text)) (a2 a3 : CausalOrderManager)
         (w2 : wire (JsonText := json_as_text)) (c1 c2 : CausalOrderManager),
    send (T := json_as_text) a0 {[ b; c ]} one {[ b; c ]} 10 = (a1, calls1, None)
    /\ Call 10 c w1 ∈ calls1
    /\ unpackMessage w1
       = Some (Env a 1 one {[ b; c ]} (build_O_M (LOG_j a0) c {[ b; c ]}))
    /\ delPeer a1 b = inl a2
    /\ send (T := json_as_text) a2 {[ c ]} two {[ c ]} 0 = (a3, [Call 0 c w2], None)
    /\ unpackMessage w2 = Some (Env a 2 two {[ c ]} (build_O_M (LOG_j a2) c {[ c ]}))
    /\ (forall o, o ∈ build_O_M (LOG_j a2) c {[ c ]} -> c ∉ Dests o)
    /\ (forall updateState updateGroup,
          recvHandler_cb (deliverMessage updateState updateGroup) c0 w2
          = Some (CbDelivered two c1)
          /\ recvHandler_cb (deliverMessage updateState updateGroup) c1 w1
             = Some (CbDelivered one c2))
    /\ SR_j c0 !! a = Some 0 /\ SR_j c1 !! a = Some 2 /\ SR_j c2 !! a = Some 1.
Proof.
  cbv zeta. eexists _, _, _, _, _, _, _, _.
  split; [vm_compute; reflexivity |].
  split; [apply list_elem_of_here |].
  split; [vm_compute; reflexivity |].
  split; [vm_compute; reflexivity |].
  split; [vm_compute; reflexivity |].
  split; [vm_compute; reflexivity |].
  split.
  { intros o Ho. vm_compute in Ho. in_cases Ho; by vm_compute. }
  split.
  { intros updateState updateGroup. unfold recvHandler_cb, recv_cb. split.
    - vm_compute unpackMessage.
      cbn [mbind option_bind env_O_M env_M env_k env_t_k env_Dests].
      rewrite (deliverMessage_chat_line updateState updateGroup "@all ann@10.0.0.1> two").
      vm_compute. reflexivity.
    - vm_compute unpackMessage.
      cbn [mbind option_bind env_O_M env_M env_k env_t_k env_Dests].
      rewrite (deliverMessage_chat_line updateState updateGroup "@all ann@10.0.0.1> one").
      vm_compute. reflexivity. }
  by vm_compute.
Qed.

(** ** C8: the piggy-back set is a pruned deep copy *)



